(** * Maps scraper: the listing pipeline of [scraper.js] and of the HTTP
    server's [runScraper], embedded as functions over recorded browser
    observations.

    The browser is not part of the program: every Playwright call the code
    awaits is answered by an observation record, and each answer is either a
    value or a thrown exception.  The code that sits between those calls
    (fallback chains, loops, try/catch blocks, string handling) is translated
    statement by statement. *)

From Stdlib Require Import String Ascii List NArith Arith Bool Lia.
Import ListNotations.

(* ================================================================== *)
(** * JavaScript strings *)
(* ================================================================== *)

Module JS.

(** A JavaScript string is a sequence of UTF-16 code units. *)
Definition jsstring : Type := list N.

(** ASCII literals of the source text. *)
Definition js (s : string) : jsstring :=
  map N_of_ascii (list_ascii_of_string s).

Fixpoint str_eqb (a b : jsstring) : bool :=
  match a, b with
  | [], [] => true
  | c :: a', d :: b' => (c =? d)%N && str_eqb a' b'
  | _, _ => false
  end.

(** Values that [getAttribute] and [textContent] resolve to: a string or
    [null]. *)
Inductive jsval : Type :=
| JNull
| JStr (s : jsstring).

(** Truthiness, for a property that may be missing ([None] is [undefined]). *)
Definition truthy (v : jsval) : bool :=
  match v with
  | JNull => false
  | JStr [] => false
  | JStr (_ :: _) => true
  end.

Definition truthy_field (f : option jsval) : bool :=
  match f with
  | None => false
  | Some v => truthy v
  end.

(** [a || b] on values. *)
Definition js_or (a b : jsval) : jsval := if truthy a then a else b.

(** ** Character classes of the regular expressions *)

Definition in_range (lo hi c : N) : bool := ((lo <=? c) && (c <=? hi))%N.

Definition is_digit (c : N) : bool := in_range 48 57 c.
Definition is_upper (c : N) : bool := in_range 65 90 c.
Definition is_lower (c : N) : bool := in_range 97 122 c.

(** [\w], used by the word boundary [\b]. *)
Definition is_word (c : N) : bool :=
  is_upper c || is_lower c || is_digit c || (c =? 95)%N.

(** Line terminators: LF, CR, U+2028, U+2029.  The dot matches anything
    else. *)
Definition is_line_terminator (c : N) : bool :=
  ((c =? 10) || (c =? 13) || (c =? 8232) || (c =? 8233))%N.

Definition is_dot (c : N) : bool := negb (is_line_terminator c).

(** [\s], which is also what [trim] strips: white space and line
    terminators. *)
Definition is_space (c : N) : bool :=
  (in_range 9 13 c || (c =? 32) || (c =? 160) || (c =? 5760)
   || in_range 8192 8202 c || (c =? 8232) || (c =? 8233) || (c =? 8239)
   || (c =? 8287) || (c =? 12288) || (c =? 65279))%N.

(** ** String methods *)

Fixpoint startsWith (p s : jsstring) : bool :=
  match p, s with
  | [], _ => true
  | c :: p', d :: s' => (c =? d)%N && startsWith p' s'
  | _ :: _, [] => false
  end.

Fixpoint includes (s sub : jsstring) : bool :=
  startsWith sub s ||
  match s with
  | [] => false
  | _ :: s' => includes s' sub
  end.

Definition endsWith (s suf : jsstring) : bool :=
  startsWith (rev suf) (rev s).

(** Longest prefix whose code units satisfy [p], and what follows it. *)
Fixpoint span (p : N -> bool) (s : jsstring) : jsstring * jsstring :=
  match s with
  | [] => ([], [])
  | c :: s' =>
      if p c then let (a, b) := span p s' in (c :: a, b)
      else ([], s)
  end.

Fixpoint dropWhile (p : N -> bool) (s : jsstring) : jsstring :=
  match s with
  | [] => []
  | c :: s' => if p c then dropWhile p s' else s
  end.

Definition trim (s : jsstring) : jsstring :=
  rev (dropWhile is_space (rev (dropWhile is_space s))).

(** [toLowerCase] on the code units A-Z; the tokens it is applied to are
    made of ASCII code units only (see [is_email_char]). *)
Definition lower_unit (c : N) : N := if is_upper c then (c + 32)%N else c.
Definition toLowerCase (s : jsstring) : jsstring := map lower_unit s.

(** [s.split(' ')[0]]: the text before the first space. *)
Definition split_space_first (s : jsstring) : jsstring :=
  fst (span (fun c => negb (c =? 32)%N) s).

(** [s.replace(/[^0-9]/g, '')]. *)
Definition keep_digits (s : jsstring) : jsstring := filter is_digit s.

Fixpoint join (sep : jsstring) (l : list jsstring) : jsstring :=
  match l with
  | [] => []
  | [x] => x
  | x :: rest => x ++ sep ++ join sep rest
  end.

(** [Array.prototype.includes] on an array of strings. *)
Definition arr_includes (l : list jsstring) (x : jsstring) : bool :=
  existsb (str_eqb x) l.

(** If [p] is a prefix of [s], what follows it. *)
Fixpoint stripPrefix (p s : jsstring) : option jsstring :=
  match p, s with
  | [], _ => Some s
  | c :: p', d :: s' => if (c =? d)%N then stripPrefix p' s' else None
  | _ :: _, [] => None
  end.

End JS.
Import JS.

(* ================================================================== *)
(** * Regular expressions: what it means for a string to match *)
(* ================================================================== *)

Module Regex.

(** Patterns over code units.  [Cls p] is a character class (or a single
    character), given by its membership test. *)
Inductive re : Type :=
| Void
| Eps
| Cls (p : N -> bool)
| Cat (r1 r2 : re)
| Alt (r1 r2 : re)
| Star (r : re).

(** [lang r s]: the whole of [s] is matched by [r], that is, [s] matches
    the anchored pattern [^r$] (without the multiline flag). *)
Inductive lang : re -> jsstring -> Prop :=
| L_eps : lang Eps []
| L_cls p c : p c = true -> lang (Cls p) [c]
| L_cat r1 r2 s1 s2 : lang r1 s1 -> lang r2 s2 -> lang (Cat r1 r2) (s1 ++ s2)
| L_alt_l r1 r2 s : lang r1 s -> lang (Alt r1 r2) s
| L_alt_r r1 r2 s : lang r2 s -> lang (Alt r1 r2) s
| L_star_nil r : lang (Star r) []
| L_star_app r s1 s2 : lang r s1 -> lang (Star r) s2 -> lang (Star r) (s1 ++ s2).

Definition Plus (r : re) : re := Cat r (Star r).
Definition Opt (r : re) : re := Alt r Eps.
Definition Chr (c : N) : re := Cls (N.eqb c).

(** The pattern that matches exactly the literal [s]. *)
Fixpoint Lit (s : jsstring) : re :=
  match s with
  | [] => Eps
  | c :: s' => Cat (Chr c) (Lit s')
  end.

(** ** A matcher by derivatives, so that matching can be computed *)

Fixpoint nullable (r : re) : bool :=
  match r with
  | Void => false
  | Eps => true
  | Cls _ => false
  | Cat r1 r2 => nullable r1 && nullable r2
  | Alt r1 r2 => nullable r1 || nullable r2
  | Star _ => true
  end.

Fixpoint deriv (c : N) (r : re) : re :=
  match r with
  | Void => Void
  | Eps => Void
  | Cls p => if p c then Eps else Void
  | Cat r1 r2 =>
      if nullable r1 then Alt (Cat (deriv c r1) r2) (deriv c r2)
      else Cat (deriv c r1) r2
  | Alt r1 r2 => Alt (deriv c r1) (deriv c r2)
  | Star r1 => Cat (deriv c r1) (Star r1)
  end.

Fixpoint test (r : re) (s : jsstring) : bool :=
  match s with
  | [] => nullable r
  | c :: s' => test (deriv c r) s'
  end.

End Regex.

(* ================================================================== *)
(** * The three patterns of the scraper, as the engine runs them *)
(* ================================================================== *)

(** Each pattern is given twice: as a [Regex.re], which says which strings
    it matches, and as the search the backtracking engine performs for it,
    which says which match is returned.  In the chip and name patterns
    every quantified class is followed by something outside the class, so
    giving back part of a greedy run can never help and each run is taken
    whole.  In the email pattern that holds of the run before the at sign;
    the run after it is the one case where the engine does give back, see
    [has_inner_dot]. *)

Module Patterns.
Import Regex.

(** ** Category chips: [/^(.+?),\s*mentioned in (\d+) reviews?$/] *)

Definition chip_re : re :=
  Cat (Plus (Cls is_dot))
   (Cat (Chr 44)
    (Cat (Star (Cls is_space))
     (Cat (Lit (js "mentioned in "))
      (Cat (Plus (Cls is_digit))
       (Cat (Lit (js " review")) (Opt (Chr 115))))))).

(** What must follow the comma: [\s*mentioned in (\d+) reviews?$].  The
    result is the second capture group. *)
Definition chip_tail (s : jsstring) : option jsstring :=
  match stripPrefix (js "mentioned in ") (dropWhile is_space s) with
  | None => None
  | Some s2 =>
      let (count, s3) := span is_digit s2 in
      match count with
      | [] => None
      | _ :: _ =>
          if str_eqb s3 (js " review") || str_eqb s3 (js " reviews")
          then Some count else None
      end
  end.

(** The lazy group [(.+?)] grows one code unit at a time; [subject] is
    what it holds so far.  The first comma after which the rest of the
    pattern matches ends it. *)
Fixpoint chip_scan (subject s : jsstring) : option (jsstring * jsstring) :=
  match s with
  | [] => None
  | c :: s' =>
      let here :=
        match subject with
        | [] => None
        | _ :: _ => if (c =? 44)%N then chip_tail s' else None
        end in
      match here with
      | Some count => Some (subject, count)
      | None =>
          if is_line_terminator c then None
          else chip_scan (subject ++ [c]) s'
      end
  end.

(** [categoryText.match(...)]: the two capture groups, or [None] for
    [null]. *)
Definition chip_match (categoryText : jsstring) : option (jsstring * jsstring) :=
  chip_scan [] categoryText.

(** ** Names: [/\b[A-Z][a-z]{2,}\s+[A-Z][a-z]{2,}\b/g] *)

Definition word_re : re :=
  Cat (Cls is_upper) (Cat (Cls is_lower) (Cat (Cls is_lower) (Star (Cls is_lower)))).

Definition namePattern : re :=
  Cat word_re (Cat (Plus (Cls is_space)) word_re).

Definition starts_with_word_char (s : jsstring) : bool :=
  match s with
  | [] => false
  | c :: _ => is_word c
  end.

(** One capitalised word at the head of [s]: the word and what follows. *)
Definition name_word (s : jsstring) : option (jsstring * jsstring) :=
  match s with
  | [] => None
  | c :: s1 =>
      if is_upper c then
        let (low, s2) := span is_lower s1 in
        if 2 <=? length low then Some (c :: low, s2) else None
      else None
  end.

(** A match that starts at the head of [s], the leading [\b] being the
    caller's to check. *)
Definition name_at (s : jsstring) : option jsstring :=
  match name_word s with
  | None => None
  | Some (w1, s2) =>
      let (sp, s3) := span is_space s2 in
      match sp with
      | [] => None
      | _ :: _ =>
          match name_word s3 with
          | None => None
          | Some (w2, s5) =>
              if starts_with_word_char s5 then None
              else Some (w1 ++ sp ++ w2)
          end
      end
  end.

(** The global search: [skip] code units of the last match are still to be
    passed over; [prev_word] tells whether the code unit before the head
    is a word character. *)
Fixpoint names_from (skip : nat) (prev_word : bool) (s : jsstring)
  : list jsstring :=
  match s with
  | [] => []
  | c :: s' =>
      match skip with
      | S k => names_from k (is_word c) s'
      | O =>
          if prev_word then names_from 0 (is_word c) s'
          else
            match name_at s with
            | Some m => m :: names_from (length m - 1) (is_word c) s'
            | None => names_from 0 (is_word c) s'
            end
      end
  end.

(** [text.match(namePattern)], with the empty list for [null]. *)
Definition match_namePattern (text : jsstring) : list jsstring :=
  names_from 0 false text.

(** ** Emails: [/[a-zA-Z0-9._-]+@[a-zA-Z0-9._-]+\.[a-zA-Z0-9._-]+/gi] *)

(** With the [i] flag and without the [u] flag the class still holds ASCII
    code units only: a code unit of 128 or more is never folded onto one
    below 128. *)
Definition is_email_char (c : N) : bool :=
  is_lower c || is_upper c || is_digit c
  || (c =? 46)%N || (c =? 95)%N || (c =? 45)%N.

Definition emailRegex : re :=
  Cat (Plus (Cls is_email_char))
   (Cat (Chr 64)
    (Cat (Plus (Cls is_email_char))
     (Cat (Chr 46) (Plus (Cls is_email_char))))).

(** The run after the at sign holds a full stop that is neither its first
    nor its last code unit: the engine gives back code units of the run
    until the literal full stop and one more class member fit. *)
Definition has_inner_dot (dom : jsstring) : bool :=
  match dom with
  | [] => false
  | _ :: t => existsb (N.eqb 46) (removelast t)
  end.

Definition email_at (s : jsstring) : option jsstring :=
  let (loc, s1) := span is_email_char s in
  match loc, s1 with
  | _ :: _, c :: s2 =>
      if (c =? 64)%N then
        let (dom, _) := span is_email_char s2 in
        if has_inner_dot dom then Some (loc ++ c :: dom) else None
      else None
  | _, _ => None
  end.

Fixpoint emails_from (skip : nat) (s : jsstring) : list jsstring :=
  match s with
  | [] => []
  | c :: s' =>
      match skip with
      | S k => emails_from k s'
      | O =>
          match email_at s with
          | Some m => m :: emails_from (length m - 1) s'
          | None => emails_from 0 s'
          end
      end
  end.

(** [content.match(emailRegex)], with the empty list for [null]. *)
Definition match_emailRegex (content : jsstring) : list jsstring :=
  emails_from 0 content.

End Patterns.
Import Patterns.

(* ================================================================== *)
(** * Awaited calls, exceptions and mutable state *)
(* ================================================================== *)

(** What awaiting a browser call gives: its value, or a thrown exception
    with its message. *)
Inductive outcome (A : Type) : Type :=
| Ok (a : A)
| Throw (e : jsstring).

Arguments Ok {A} a.
Arguments Throw {A} e.

(** Statements run over a mutable state [S].  A throw keeps the state as it
    was when it happened: what was assigned or pushed before the exception
    stays assigned. *)
Definition M (S A : Type) : Type := S -> outcome A * S.

Definition ret {S A} (a : A) : M S A := fun s => (Ok a, s).

Definition bind {S A B} (m : M S A) (k : A -> M S B) : M S B :=
  fun s =>
    match m s with
    | (Ok a, s') => k a s'
    | (Throw e, s') => (Throw e, s')
    end.

(** [await call]: the observation answers. *)
Definition await {S A} (o : outcome A) : M S A := fun s => (o, s).

Definition throw {S A} (e : jsstring) : M S A := fun s => (Throw e, s).

Definition gets {S A} (f : S -> A) : M S A := fun s => (Ok (f s), s).

Definition modify {S} (f : S -> S) : M S unit := fun s => (Ok tt, f s).

(** [try { m } catch (e) { h e }] *)
Definition try_catch {S A} (m : M S A) (h : jsstring -> M S A) : M S A :=
  fun s =>
    match m s with
    | (Ok a, s') => (Ok a, s')
    | (Throw e, s') => h e s'
    end.

(** [if (c) { m }] *)
Definition when {S} (c : bool) (m : M S unit) : M S unit :=
  if c then m else ret tt.

(** [for (const x of l) { body x }] *)
Fixpoint for_of {S A} (l : list A) (body : A -> M S unit) : M S unit :=
  match l with
  | [] => ret tt
  | x :: rest => bind (body x) (fun _ => for_of rest body)
  end.

Declare Scope js_scope.
Delimit Scope js_scope with js.
Notation "x <- m ;; k" := (bind m (fun x => k))
  (at level 61, m at next level, right associativity) : js_scope.
Notation "m ;; k" := (bind m (fun _ => k))
  (at level 61, right associativity) : js_scope.
Open Scope js_scope.

(** A method call on a value that may be [null]: a TypeError when it is. *)
Definition non_null {S} (v : jsval) : M S jsstring :=
  match v with
  | JStr s => ret s
  | JNull => throw (js "TypeError: Cannot read properties of null")
  end.

(* ================================================================== *)
(** * Records *)
(* ================================================================== *)

(** The object literal [review = {}] and the keys set on it.  [None] is a
    key that was never set. *)
Module Review.
Record t : Type := mk {
  reviewer : option jsval;
  rating : option jsval;
  text : option jsval;
  time : option jsval
}.
Definition empty : t := mk None None None None.
Definition set_reviewer (v : jsval) (r : t) : t :=
  mk (Some v) (rating r) (text r) (time r).
Definition set_rating (v : jsval) (r : t) : t :=
  mk (reviewer r) (Some v) (text r) (time r).
Definition set_text (v : jsval) (r : t) : t :=
  mk (reviewer r) (rating r) (Some v) (time r).
Definition set_time (v : jsval) (r : t) : t :=
  mk (reviewer r) (rating r) (text r) (Some v).
End Review.

(** The object literal [data].  [attributes] is not among the keys of the
    literal: it exists only once it has been assigned. *)
Record ListingRecord : Type := mkListing {
  url : jsstring;
  name : jsval;
  address : jsval;
  phone : jsval;
  website : jsval;
  rating : jsval;
  reviewCount : jsstring;
  attributes : option (list jsstring);
  reviews : list Review.t;
  reviewCategories : list jsstring;
  mentionedNames : list jsstring;
  email : jsstring
}.

Definition new_data (u : jsstring) : ListingRecord :=
  mkListing u (JStr []) (JStr []) (JStr []) (JStr []) (JStr []) [] None [] [] [] [].

Definition set_name v d :=
  mkListing (url d) v (address d) (phone d) (website d) (rating d)
    (reviewCount d) (attributes d) (reviews d) (reviewCategories d)
    (mentionedNames d) (email d).
Definition set_address v d :=
  mkListing (url d) (name d) v (phone d) (website d) (rating d)
    (reviewCount d) (attributes d) (reviews d) (reviewCategories d)
    (mentionedNames d) (email d).
Definition set_phone v d :=
  mkListing (url d) (name d) (address d) v (website d) (rating d)
    (reviewCount d) (attributes d) (reviews d) (reviewCategories d)
    (mentionedNames d) (email d).
Definition set_website v d :=
  mkListing (url d) (name d) (address d) (phone d) v (rating d)
    (reviewCount d) (attributes d) (reviews d) (reviewCategories d)
    (mentionedNames d) (email d).
Definition set_rating v d :=
  mkListing (url d) (name d) (address d) (phone d) (website d) v
    (reviewCount d) (attributes d) (reviews d) (reviewCategories d)
    (mentionedNames d) (email d).
Definition set_reviewCount v d :=
  mkListing (url d) (name d) (address d) (phone d) (website d) (rating d)
    v (attributes d) (reviews d) (reviewCategories d)
    (mentionedNames d) (email d).
Definition set_attributes v d :=
  mkListing (url d) (name d) (address d) (phone d) (website d) (rating d)
    (reviewCount d) v (reviews d) (reviewCategories d)
    (mentionedNames d) (email d).
Definition set_reviews v d :=
  mkListing (url d) (name d) (address d) (phone d) (website d) (rating d)
    (reviewCount d) (attributes d) v (reviewCategories d)
    (mentionedNames d) (email d).
Definition set_reviewCategories v d :=
  mkListing (url d) (name d) (address d) (phone d) (website d) (rating d)
    (reviewCount d) (attributes d) (reviews d) v
    (mentionedNames d) (email d).
Definition set_mentionedNames v d :=
  mkListing (url d) (name d) (address d) (phone d) (website d) (rating d)
    (reviewCount d) (attributes d) (reviews d) (reviewCategories d)
    v (email d).
Definition set_email v d :=
  mkListing (url d) (name d) (address d) (phone d) (website d) (rating d)
    (reviewCount d) (attributes d) (reviews d) (reviewCategories d)
    (mentionedNames d) v.

(** The browser context: the secondary pages it has open. *)
Record Context : Type := mkContext {
  next_page : nat;
  open_pages : list nat
}.

(** The state one listing pass runs over. *)
Record St : Type := mkSt {
  data : ListingRecord;
  context : Context
}.

Definition on_data (f : ListingRecord -> ListingRecord) : M St unit :=
  modify (fun s => mkSt (f (data s)) (context s)).

(* ================================================================== *)
(** * Observations: what the browser answers *)
(* ================================================================== *)

(** An element handle that is asked for its [aria-label] and its text. *)
Record ElemObs : Type := mkElem {
  aria_label : outcome jsval;
  text_content : outcome jsval
}.

(** A [button[data-item-id]] of the details pane. *)
Record ButtonObs : Type := mkButton {
  btn_textContent : outcome jsval;
  btn_ariaLabel : outcome jsval;
  btn_itemId : outcome jsval
}.

(** A [div[data-review-id]]: the answers to the selector queries run
    inside it ([None] is [null], no element found). *)
Record ReviewObs : Type := mkReviewObs {
  q_d4r55 : outcome (option ElemObs);
  q_button_contrib : outcome (option ElemObs);
  q_a_contrib : outcome (option ElemObs);
  q_stars : outcome (option ElemObs);
  q_wiI7pd : outcome (option ElemObs);
  q_MyEned : outcome (option ElemObs);
  q_rsqaWe : outcome (option ElemObs)
}.

(** Everything one listing pass asks the browser, in the order asked. *)
Record ListingObs : Type := mkListingObs {
  goto_listing : outcome unit;
  h1_textContent : outcome jsval;
  item_buttons : outcome (list ButtonObs);
  authority_link : outcome (option (outcome jsval));
  stars_count : outcome nat;
  stars_aria : outcome jsval;
  text_rating_count : outcome nat;
  text_rating_text : outcome jsval;
  paren_count : outcome nat;
  paren_text : outcome jsval;
  phrase_count : outcome nat;
  phrase_text : outcome jsval;
  about_tab_count : outcome nat;
  about_tab_click : outcome unit;
  about_content : outcome jsstring;
  reviews_tab_count : outcome nat;
  reviews_tab_click : outcome unit;
  wait_first_review : outcome unit;
  container_count : outcome nat;
  container_scroll : nat -> outcome unit;
  more_buttons : outcome (list (outcome unit));
  review_elements : outcome (list ReviewObs);
  category_buttons : outcome (list ElemObs);
  new_page : outcome unit;
  goto_website : outcome unit;
  website_content : outcome jsstring
}.

(* ================================================================== *)
(** * Result discovery *)
(* ================================================================== *)

Definition MAX_RESULTS : nat := 10.

(** The scroll loop.  [feed n] is the number of rendered
    [div[role=article]] elements once the feed has been scrolled [n]
    times; the loop's only state is that number of scrolls.  The loop is
    [while (true)], so the model counts iterations down from [fuel] and
    answers [None] when they are used up before the loop has left. *)
Fixpoint scroll_loop (fuel : nat) (feed : nat -> nat) (scrolls : nat)
  : option nat :=
  match fuel with
  | O => None
  | S fuel' =>
      let results := feed scrolls in
      if MAX_RESULTS <=? results then Some scrolls
      else
        (* feed.scrollTo(0, feed.scrollHeight); waitForTimeout(2000) *)
        if (0 <? results) && (results <? MAX_RESULTS)
        then scroll_loop fuel' feed (S scrolls)
        else Some (S scrolls)
  end.

(** Collecting [urls] from the [href]s of the article links. *)
Fixpoint collect_urls (hrefs : list jsval) (urls : list jsstring)
  : list jsstring :=
  match hrefs with
  | [] => urls
  | href :: rest =>
      let urls' :=
        match href with
        | JStr h =>
            if truthy href && negb (arr_includes urls h)
            then urls ++ [h] else urls
        | JNull => urls
        end in
      if MAX_RESULTS <=? length urls' then urls'
      else collect_urls rest urls'
  end.

(* ================================================================== *)
(** * Field resolver *)
(* ================================================================== *)

Definition positive (n : nat) : bool := 0 <? n.

Definition name_stage (o : ListingObs) : M St unit :=
  try_catch
    (v <- await (h1_textContent o) ;;
     on_data (set_name v))
    (fun _ => ret tt).

Definition button_step (btn : ButtonObs) : M St unit :=
  text <- await (btn_textContent btn) ;;
  ariaLabel <- await (btn_ariaLabel btn) ;;
  itemIdv <- await (btn_itemId btn) ;;
  itemId <- non_null itemIdv ;;
  when (includes itemId (js "address"))
       (on_data (set_address (js_or ariaLabel text))) ;;
  when (includes itemId (js "phone"))
       (on_data (set_phone (js_or ariaLabel text))) ;;
  when (includes itemId (js "authority"))
       (on_data (set_website text)).

Definition buttons_stage (o : ListingObs) : M St unit :=
  buttons <- await (item_buttons o) ;;
  for_of buttons button_step.

Definition website_stage (o : ListingObs) : M St unit :=
  websiteLink <- await (authority_link o) ;;
  match websiteLink with
  | Some href => v <- await href ;; on_data (set_website v)
  | None => ret tt
  end.

Definition rating_stage (o : ListingObs) : M St unit :=
  try_catch
    (n <- await (stars_count o) ;;
     (if positive n then
        ariav <- await (stars_aria o) ;;
        aria <- non_null ariav ;;
        on_data (set_rating (JStr (split_space_first aria)))
      else
        m <- await (text_rating_count o) ;;
        if positive m then
          v <- await (text_rating_text o) ;;
          on_data (set_rating v)
        else ret tt) ;;
     n2 <- await (paren_count o) ;;
     if positive n2 then
       textv <- await (paren_text o) ;;
       text <- non_null textv ;;
       on_data (set_reviewCount (keep_digits text))
     else
       m2 <- await (phrase_count o) ;;
       if positive m2 then
         textv <- await (phrase_text o) ;;
         text <- non_null textv ;;
         on_data (set_reviewCount (keep_digits text))
       else ret tt)
    (fun _ => ret tt).

(** ** Attributes (the About tab; only the command-line scraper has it) *)

Definition push_if (c : bool) (x : jsstring) (l : list jsstring) : list jsstring :=
  if c then l ++ [x] else l.

Definition scan_attributes (pageContent : jsstring) : list jsstring :=
  let attributes := [] in
  let attributes :=
    push_if (includes pageContent (js "Identified as women-owned"))
            (js "Women-owned") attributes in
  let attributes :=
    push_if (includes pageContent (js "Identified as veteran-owned"))
            (js "Veteran-owned") attributes in
  let attributes :=
    push_if (includes pageContent (js "Identified as Black-owned"))
            (js "Black-owned") attributes in
  let attributes :=
    push_if (includes pageContent (js "Identified as Latino-owned"))
            (js "Latino-owned") attributes in
  attributes.

Definition about_stage (o : ListingObs) : M St unit :=
  try_catch
    (n <- await (about_tab_count o) ;;
     if positive n then
       await (about_tab_click o) ;;
       pageContent <- await (about_content o) ;;
       on_data (set_attributes (Some (scan_attributes pageContent)))
     else ret tt)
    (fun _ => ret tt).

(* ================================================================== *)
(** * Review harvester *)
(* ================================================================== *)

(** [await el.$(a) || await el.$(b)]: the second query runs only when the
    first found nothing. *)
Definition or_query {S} (first : option ElemObs) (second : outcome (option ElemObs))
  : M S (option ElemObs) :=
  match first with
  | Some e => ret (Some e)
  | None => await second
  end.

(** The body of the [try] that fills [review]. *)
Definition review_fields (reviewEl : ReviewObs) : M Review.t unit :=
  a <- await (q_d4r55 reviewEl) ;;
  b <- or_query a (q_button_contrib reviewEl) ;;
  reviewerEl <- or_query b (q_a_contrib reviewEl) ;;
  match reviewerEl with
  | Some e =>
      label <- await (aria_label e) ;;
      v <- (if truthy label then ret label else await (text_content e)) ;;
      modify (Review.set_reviewer v)
  | None => ret tt
  end ;;
  starsEl <- await (q_stars reviewEl) ;;
  match starsEl with
  | Some e => v <- await (aria_label e) ;; modify (Review.set_rating v)
  | None => ret tt
  end ;;
  textEl <- await (q_wiI7pd reviewEl) ;;
  match textEl with
  | Some e => v <- await (text_content e) ;; modify (Review.set_text v)
  | None =>
      textDiv <- await (q_MyEned reviewEl) ;;
      match textDiv with
      | Some e => v <- await (text_content e) ;; modify (Review.set_text v)
      | None => ret tt
      end
  end ;;
  timeEl <- await (q_rsqaWe reviewEl) ;;
  match timeEl with
  | Some e => v <- await (text_content e) ;; modify (Review.set_time v)
  | None => ret tt
  end.

(** [const review = {}; try { ... } catch (e) { console.log(...) }] *)
Definition extract_review (reviewEl : ReviewObs) : Review.t :=
  snd (try_catch (review_fields reviewEl) (fun _ => ret tt) Review.empty).

(** [review.reviewer || review.text || review.rating] *)
Definition has_some_data (review : Review.t) : bool :=
  truthy_field (Review.reviewer review)
  || truthy_field (Review.text review)
  || truthy_field (Review.rating review).

Definition push_review (review : Review.t) (d : ListingRecord) : ListingRecord :=
  set_reviews (reviews d ++ [review]) d.

(** The loop over [reviewElements], with its [break]. *)
Fixpoint review_loop (reviewElements : list ReviewObs) : M St unit :=
  match reviewElements with
  | [] => ret tt
  | reviewEl :: rest =>
      let review := extract_review reviewEl in
      when (has_some_data review) (on_data (push_review review)) ;;
      d <- gets data ;;
      if 10 <=? length (reviews d) then ret tt
      else review_loop rest
  end.

(** Clicking the first ten expansion buttons; a failed click is swallowed
    by its own [try]. *)
Definition expand_texts (moreButtons : list (outcome unit)) : M St unit :=
  for_of (firstn 10 moreButtons)
         (fun click => try_catch (await click) (fun _ => ret tt)).

Definition harvest_reviews (o : ListingObs) : M St unit :=
  n <- await (reviews_tab_count o) ;;
  if positive n then
    await (reviews_tab_click o) ;;
    await (wait_first_review o) ;;
    c <- await (container_count o) ;;
    when (positive c)
         (for_of [0; 1; 2] (fun i => await (container_scroll o i))) ;;
    moreButtons <- await (more_buttons o) ;;
    expand_texts moreButtons ;;
    reviewElements <- await (review_elements o) ;;
    review_loop reviewElements
  else ret tt.

(* ================================================================== *)
(** * Category and entity extractor *)
(* ================================================================== *)

(** What one chip adds to [data.reviewCategories], if anything. *)
Definition category_entry (categoryText : jsval) : option jsstring :=
  match categoryText with
  | JNull => None
  | JStr s =>
      if truthy categoryText && includes s (js "mentioned in") then
        match chip_match s with
        | Some (subject, count) => Some (subject ++ js " (" ++ count ++ js ")")
        | None => Some (trim s)
        end
      else None
  end.

Definition push_category (entry : jsstring) (d : ListingRecord) : ListingRecord :=
  set_reviewCategories (reviewCategories d ++ [entry]) d.

Definition chip_step (btn : ElemObs) : M St unit :=
  ariaLabel <- await (aria_label btn) ;;
  text <- await (text_content btn) ;;
  let categoryText := js_or ariaLabel text in
  match category_entry categoryText with
  | Some entry => on_data (push_category entry)
  | None => ret tt
  end.

Definition scan_categories (o : ListingObs) : M St unit :=
  on_data (set_reviewCategories []) ;;
  categoryButtons <- await (category_buttons o) ;;
  for_of categoryButtons chip_step.

Definition excludeWords : list jsstring :=
  map js
    [ "North Beach"; "San Francisco"; "New York"; "Los Angeles"; "Fort Worth";
      "Dallas"; "South Bay"; "East Bay"; "West Coast"; "East Coast";
      "Google Maps"; "Yelp Reviews"; "Facebook Page"; "Instagram Account";
      "The Godfather"; "The Beatles"; "The Rolling";
      "Monday Morning"; "Tuesday Night"; "Wednesday Evening";
      "Thank You"; "Best Regards"; "Kind Regards"; "Very Good";
      "Highly Recommend";
      "Perfect Balance"; "Tax Services"; "The Black"; "Bookkeeping Services";
      "Tax Service"; "Bookkeeping Service"; "Accounting Services";
      "Accounting Service"; "Financial Services"; "Financial Service";
      "Business Services"; "Business Service"; "Tax Preparation";
      "Tax Consultant"; "Tax Consultants"; "Tax Return"; "Income Tax";
      "Tax Season"; "Tax Returns"; "Tax Deductions"; "Balance Sheet";
      "Profit Loss"; "Cash Flow"; "General Ledger" ]%string.

(** The innermost [if] of the name loop, on the names accepted so far. *)
Definition accept_name (names : list jsstring) (name : jsstring) : list jsstring :=
  let trimmedName := trim name in
  if negb (arr_includes excludeWords trimmedName)
     && negb (includes trimmedName [10%N])
     && negb (arr_includes names trimmedName)
  then names ++ [trimmedName]
  else names.

(** The matches of one review's text, empty when [review.text] is falsy. *)
Definition name_matches (review : Review.t) : list jsstring :=
  match Review.text review with
  | Some (JStr s) => if truthy (JStr s) then match_namePattern s else []
  | _ => []
  end.

Definition names_of_review (names : list jsstring) (review : Review.t)
  : list jsstring :=
  fold_left accept_name (name_matches review) names.

Definition mine_names (rs : list Review.t) : list jsstring :=
  fold_left names_of_review rs [].

Definition scan_names : M St unit :=
  on_data (set_mentionedNames []) ;;
  on_data (fun d => set_mentionedNames (mine_names (reviews d)) d).

(** The whole [try] block of reviews, categories and names. *)
Definition reviews_stage (o : ListingObs) : M St unit :=
  try_catch
    (harvest_reviews o ;;
     scan_categories o ;;
     scan_names)
    (fun _ => ret tt).

(* ================================================================== *)
(** * Email harvester *)
(* ================================================================== *)

(** [new Set(emails)] spread back into an array: first occurrences, in
    order. *)
Definition set_add (seen : list jsstring) (x : jsstring) : list jsstring :=
  if arr_includes seen x then seen else seen ++ [x].

Definition new_Set (l : list jsstring) : list jsstring :=
  fold_left set_add l [].

Definition junk_extensions : list jsstring :=
  map js ["png"; "jpg"; "jpeg"; "gif"; "css"; "js"]%string.

(** [lower.match(/\.(png|jpg|jpeg|gif|css|js)$/)] *)
Definition has_junk_extension (lower : jsstring) : bool :=
  existsb (fun ext => endsWith lower (46%N :: ext)) junk_extensions.

Definition junk_substrings : list jsstring :=
  map js ["sentry"; "wix"; "node_modules"]%string.

Definition placeholder_domains : list jsstring :=
  map js ["example.com"; "domain.com"]%string.

(** The callback of [filter]. *)
Definition keep_email (email : jsstring) : bool :=
  let lower := toLowerCase email in
  negb (has_junk_extension lower)
  && negb (includes lower (js "sentry"))
  && negb (includes lower (js "wix"))
  && negb (includes lower (js "node_modules"))
  && negb (includes lower (js "example.com"))
  && negb (includes lower (js "domain.com")).

Definition uniqueEmails (emails : list jsstring) : list jsstring :=
  filter keep_email (new_Set emails).

(** [context.newPage()]: a page that did open is recorded as open. *)
Definition newPage (o : ListingObs) : M St nat :=
  fun s =>
    match new_page o with
    | Ok _ =>
        let c := context s in
        let p := next_page c in
        (Ok p, mkSt (data s) (mkContext (S p) (p :: open_pages c)))
    | Throw e => (Throw e, s)
    end.

(** [page2.close()], which is taken to succeed: the page is no longer
    among the open ones. *)
Definition close (p : nat) : M St unit :=
  modify (fun s =>
    let c := context s in
    mkSt (data s)
         (mkContext (next_page c)
                    (filter (fun q => negb (q =? p)) (open_pages c)))).

(** The body of the [try] of the email block. *)
Definition harvest_email (o : ListingObs) : M St unit :=
  page2 <- newPage o ;;
  await (goto_website o) ;;
  content <- await (website_content o) ;;
  match match_emailRegex content with
  | [] => ret tt
  | emails => on_data (set_email (join (js ", ") (uniqueEmails emails)))
  end ;;
  close page2.

(** The two programs. *)
Inductive program : Type :=
| CLI      (* scraper.js *)
| Server.  (* runScraper of the HTTP server *)

(** The [catch] of the email block.  [page2] is declared with [const]
    inside the [try] block, so it is not in scope in the [catch] block:
    in scraper.js evaluating [page2.isClosed()] there raises a
    ReferenceError, and nothing is closed.  The server only logs. *)
Definition email_catch (prog : program) (e : jsstring) : M St unit :=
  match prog with
  | CLI => throw (js "ReferenceError: page2 is not defined")
  | Server => ret tt
  end.

Definition email_stage (prog : program) (o : ListingObs) : M St unit :=
  d <- gets data ;;
  if truthy (website d) then
    try_catch (harvest_email o) (email_catch prog)
  else ret tt.

(* ================================================================== *)
(** * One listing, and the loop over the listings *)
(* ================================================================== *)

(** The body of the per-listing [try], up to [resultsData.push(data)]. *)
Definition listing_body (prog : program) (o : ListingObs) : M St unit :=
  await (goto_listing o) ;;
  name_stage o ;;
  buttons_stage o ;;
  website_stage o ;;
  rating_stage o ;;
  match prog with
  | CLI => about_stage o
  | Server => ret tt
  end ;;
  reviews_stage o ;;
  email_stage prog o.

(** One iteration of [for (const url of urls)]: the record pushed to
    [resultsData], or [None] when the per-listing [catch] was reached, and
    the browser context afterwards. *)
Definition scrape_listing (prog : program) (u : jsstring) (o : ListingObs)
                          (c : Context) : option ListingRecord * Context :=
  match listing_body prog o (mkSt (new_data u) c) with
  | (Ok _, s) => (Some (data s), context s)
  | (Throw _, s) => (None, context s)
  end.

(** The loop over [urls]; [obs u] is what the browser answers while [u]
    is being processed. *)
Fixpoint scrape_urls (prog : program) (obs : jsstring -> ListingObs)
                     (urls : list jsstring) (c : Context)
  : list ListingRecord * Context :=
  match urls with
  | [] => ([], c)
  | u :: rest =>
      let (r, c') := scrape_listing prog u (obs u) c in
      let (rs, c'') := scrape_urls prog obs rest c' in
      (match r with Some d => d :: rs | None => rs end, c'')
  end.

(** What a run sees before the listings: the feed while scrolling and the
    [href]s of the article links afterwards. *)
Record RunObs : Type := mkRunObs {
  feed : nat -> nat;
  article_hrefs : list jsval;
  listing_obs : jsstring -> ListingObs
}.

(** A whole run, from the scroll loop to [resultsData]; [None] when the
    scroll loop has not left within [fuel] iterations.  The calls before
    the listing loop (opening the directory, submitting the query, reading
    the [href]s) are taken to answer: when one of them throws the run is
    aborted and there are no records to speak of. *)
Definition runScraper (prog : program) (fuel : nat) (ro : RunObs)
  : option (list ListingRecord) :=
  match scroll_loop fuel (feed ro) 0 with
  | None => None
  | Some _ =>
      let urls := collect_urls (article_hrefs ro) [] in
      Some (fst (scrape_urls prog (listing_obs ro) urls (mkContext 0 [])))
  end.

(* ================================================================== *)
(** * Vocabulary of the statements *)
(* ================================================================== *)

(** ** Assertions about statements *)

(** [triple P m Q E]: started in a state satisfying [P], the statement [m]
    either completes with a value and a state related by [Q], or throws in
    a state satisfying [E]. *)
Definition triple {S A} (P : S -> Prop) (m : M S A)
                  (Q : A -> S -> Prop) (E : S -> Prop) : Prop :=
  forall s, P s ->
    match m s with
    | (Ok a, s') => Q a s'
    | (Throw _, s') => E s'
    end.

(** [keeps I m]: [I] holds after [m], completed or thrown, when it held
    before. *)
Definition keeps {S A} (I : S -> Prop) (m : M S A) : Prop :=
  triple I m (fun _ => I) I.

(** An invariant on the record, as an invariant on the state. *)
Definition on_record (I : ListingRecord -> Prop) : St -> Prop :=
  fun s => I (data s).

(** An invariant that looks at the record through [f] only. *)
Definition blind_to {T} (f : ListingRecord -> T) (I : ListingRecord -> Prop)
  : Prop :=
  forall d d', f d = f d' -> I d -> I d'.

(** The part of the record that the review, category, name and email
    stages write. *)
Definition harvest_view (d : ListingRecord)
  : list Review.t * list jsstring * list jsstring * jsstring :=
  (reviews d, reviewCategories d, mentionedNames d, email d).

Definition field_blind (I : ListingRecord -> Prop) : Prop :=
  blind_to harvest_view I.

Definition put_attributes (x : option (list jsstring)) (s : St) : St :=
  mkSt (set_attributes x (data s)) (context s).

(** [commutes m]: [m] neither reads nor writes [data.attributes]; it does
    the same whatever that key holds and leaves it as it is. *)
Definition commutes {A} (m : M St A) : Prop :=
  forall x s, m (put_attributes x s) = (fst (m s), put_attributes x (snd (m s))).

(** ** Parts of a listing pass *)

(** Everything the per-listing [try] runs before the reviews block. *)
Definition field_stages (o : ListingObs) (prog : program) : M St unit :=
  await (goto_listing o) ;;
  name_stage o ;;
  buttons_stage o ;;
  website_stage o ;;
  rating_stage o ;;
  match prog with
  | CLI => about_stage o
  | Server => ret tt
  end.

(** The stages before the About tab. *)
Definition pre_about (o : ListingObs) : M St unit :=
  await (goto_listing o) ;;
  name_stage o ;;
  buttons_stage o ;;
  website_stage o ;;
  rating_stage o.

(** The stages after it. *)
Definition harvest_stages (prog : program) (o : ListingObs) : M St unit :=
  reviews_stage o ;; email_stage prog o.

(** [d] is the record some listing pass over the page [o] pushed to
    [resultsData]. *)
Definition produced (prog : program) (o : ListingObs) (d : ListingRecord)
  : Prop :=
  exists u c c', scrape_listing prog u o c = (Some d, c').

(** ** Reviews *)

(** A record of [data.reviews] that was filled from one of the review
    elements of the page and has some data. *)
Definition harvested_from (o : ListingObs) (review : Review.t) : Prop :=
  has_some_data review = true /\
  exists reviewElements reviewEl,
    review_elements o = Ok reviewElements /\
    In reviewEl reviewElements /\
    review = extract_review reviewEl.

Definition reviews_ok (o : ListingObs) (d : ListingRecord) : Prop :=
  length (reviews d) <= 10 /\ Forall (harvested_from o) (reviews d).

Definition no_reviews (d : ListingRecord) : Prop := reviews d = [].

(** The selector chain for the reviewer found no element. *)
Definition reviewer_unresolved (reviewEl : ReviewObs) : Prop :=
  q_d4r55 reviewEl = Ok None /\
  q_button_contrib reviewEl = Ok None /\
  q_a_contrib reviewEl = Ok None.

(** Neither selector for the text found an element. *)
Definition text_unresolved (reviewEl : ReviewObs) : Prop :=
  q_wiI7pd reviewEl = Ok None /\ q_MyEned reviewEl = Ok None.

(** ** Review categories *)

(** The shape [<subject> (<count>)], that is [/^.+ \(\d+\)$/]. *)
Definition entry_re : Regex.re :=
  Regex.Cat (Regex.Plus (Regex.Cls is_dot))
   (Regex.Cat (Regex.Lit (js " ("))
    (Regex.Cat (Regex.Plus (Regex.Cls is_digit)) (Regex.Lit (js ")")))).

(** Where an entry of [reviewCategories] comes from: a chip of the page
    whose label contains the phrase; the entry has the counted shape when
    the label matches the whole chip pattern and is the trimmed label
    otherwise. *)
Definition chip_origin (o : ListingObs) (entry : jsstring) : Prop :=
  exists categoryButtons btn ariaLabel text label,
    category_buttons o = Ok categoryButtons /\
    In btn categoryButtons /\
    aria_label btn = Ok ariaLabel /\
    text_content btn = Ok text /\
    js_or ariaLabel text = JStr label /\
    includes label (js "mentioned in") = true /\
    ((Regex.lang chip_re label /\
      exists subject count,
        chip_match label = Some (subject, count) /\
        entry = subject ++ js " (" ++ count ++ js ")" /\
        Regex.lang entry_re entry)
     \/ (~ Regex.lang chip_re label /\ entry = trim label)).

Definition categories_ok (o : ListingObs) (d : ListingRecord) : Prop :=
  Forall (chip_origin o) (reviewCategories d).

(** ** Mentioned names *)

(** A list without its later repeats: every string stays where it is
    first seen. *)
Fixpoint first_seen (l : list jsstring) : list jsstring :=
  match l with
  | [] => []
  | x :: rest => x :: filter (fun y => negb (str_eqb y x)) (first_seen rest)
  end.

(** The two tests of the name loop that do not depend on the names found
    so far. *)
Definition acceptable (trimmedName : jsstring) : bool :=
  negb (arr_includes excludeWords trimmedName)
  && negb (includes trimmedName [10%N]).

(** The candidates, in the order the loops meet them. *)
Definition name_candidates (rs : list Review.t) : list jsstring :=
  map trim (flat_map name_matches rs).

Definition no_names (d : ListingRecord) : Prop := mentionedNames d = [].

Definition names_ok (d : ListingRecord) : Prop :=
  mentionedNames d = [] \/ mentionedNames d = mine_names (reviews d).

(** ** Emails *)

(** A string without the letters A to Z. *)
Definition no_upper (s : jsstring) : bool :=
  forallb (fun c => negb (is_upper c)) s.

(** What the filter guarantees of a token it keeps, for the token in lower
    case and for the token as written. *)
Definition clean_token (token : jsstring) : Prop :=
  (forall ext, In ext junk_extensions ->
     endsWith (toLowerCase token) (46%N :: ext) = false /\
     endsWith token (46%N :: ext) = false) /\
  (forall sub, In sub junk_substrings ->
     includes (toLowerCase token) sub = false /\
     includes token sub = false) /\
  (forall dom, In dom placeholder_domains ->
     includes (toLowerCase token) dom = false /\
     includes token dom = false).

(** The shape of [data.email]. *)
Definition email_ok (d : ListingRecord) : Prop :=
  exists tokens,
    email d = join (js ", ") tokens /\
    NoDup tokens /\
    forall token, In token tokens ->
      Regex.lang emailRegex token /\ clean_token token.

(** One of the three awaited calls of the email block throws. *)
Definition harvest_throws (o : ListingObs) : bool :=
  match new_page o, goto_website o, website_content o with
  | Ok _, Ok _, Ok _ => false
  | _, _, _ => true
  end.

(** ** Attributes, and the two programs *)

(** What the About block assigns to [data.attributes], if it gets that
    far. *)
Definition about_assigns (o : ListingObs) : option (list jsstring) :=
  match about_tab_count o with
  | Ok n =>
      if positive n then
        match about_tab_click o, about_content o with
        | Ok _, Ok pageContent => Some (scan_attributes pageContent)
        | _, _ => None
        end
      else None
  | Throw _ => None
  end.

(** The tags of a record, none when the key is missing. *)
Definition tags (d : ListingRecord) : list jsstring :=
  match attributes d with
  | Some l => l
  | None => []
  end.

(** A record without its [attributes] key. *)
Definition erase_attributes (d : ListingRecord) : ListingRecord :=
  set_attributes None d.

(** [data.website] as the field resolver leaves it. *)
Definition resolved_website (u : jsstring) (o : ListingObs) (c : Context)
  : jsval :=
  website (data (snd (pre_about o (mkSt (new_data u) c)))).

(** The email block does not throw: it is skipped, or its calls answer. *)
Definition harvester_quiet (u : jsstring) (o : ListingObs) (c : Context)
  : Prop :=
  truthy (resolved_website u o c) = true -> harvest_throws o = false.

(** ** Sample pages *)

Definition found_text (s : string) : outcome (option ElemObs) :=
  Ok (Some (mkElem (Ok JNull) (Ok (JStr (js s))))).

Definition found_label (s : string) : outcome (option ElemObs) :=
  Ok (Some (mkElem (Ok (JStr (js s))) (Ok JNull))).

Definition not_found : outcome (option ElemObs) := Ok None.

(** A chip with an [aria-label]. *)
Definition chip (label : string) : ElemObs :=
  mkElem (Ok (JStr (js label))) (Ok (JStr [])).

(** A review by John Roe with a text and no time element. *)
Definition review_with_text (s : string) : ReviewObs :=
  mkReviewObs (found_text "John Roe") not_found not_found
              (found_label "5 stars") (found_text s) not_found not_found.

(** A review element inside which no selector finds anything. *)
Definition hollow_review : ReviewObs :=
  mkReviewObs not_found not_found not_found not_found not_found not_found
              not_found.

(** A listing page on which every call answers; what varies is the
    website link, the About tab, the review elements, the chips and the
    three calls of the email harvester. *)
Definition page (link : option jsstring) (about_tabs : nat)
                (about_html : jsstring) (revs : list ReviewObs)
                (chips : list ElemObs)
                (open2 goto2 : outcome unit) (site : outcome jsstring)
  : ListingObs :=
  mkListingObs
    (Ok tt) (Ok (JStr (js "Real Biz")))
    (Ok [mkButton (Ok (JStr (js "1 Main St"))) (Ok (JStr (js "Address: 1 Main St")))
                  (Ok (JStr (js "address")))])
    (Ok (option_map (fun h => Ok (JStr h)) link))
    (Ok 1) (Ok (JStr (js "4.5 stars"))) (Ok 0) (Ok JNull)
    (Ok 1) (Ok (JStr (js "(1,234)"))) (Ok 0) (Ok JNull)
    (Ok about_tabs) (Ok tt) (Ok about_html)
    (Ok 1) (Ok tt) (Ok tt) (Ok 1) (fun _ => Ok tt) (Ok []) (Ok revs)
    (Ok chips)
    open2 goto2 site.

Definition ctx0 : Context := mkContext 0 [].

(** A listing with a website, an About tab, three review elements, two
    chips and two addresses on its website. *)
Definition sample_page : ListingObs :=
  page (Some (js "https://realbiz.com")) 1
       (js "<div>Identified as women-owned</div>")
       [review_with_text "Thanks, John Doe was great"; hollow_review;
        review_with_text "John Doe and Thank You from New York"]
       [chip "quality, mentioned in 11 reviews"; chip "Nearby restaurants"]
       (Ok tt) (Ok tt)
       (Ok (js "mail contact@example.com or info@realbiz.com, logo@2x.png")).

(** What scraper.js makes of it. *)
Definition sample_record : ListingRecord :=
  mkListing (js "https://maps/place/1") (JStr (js "Real Biz"))
    (JStr (js "Address: 1 Main St")) (JStr []) (JStr (js "https://realbiz.com"))
    (JStr (js "4.5")) (js "1234") (Some [js "Women-owned"])
    [ Review.mk (Some (JStr (js "John Roe"))) (Some (JStr (js "5 stars")))
                (Some (JStr (js "Thanks, John Doe was great"))) None;
      Review.mk (Some (JStr (js "John Roe"))) (Some (JStr (js "5 stars")))
                (Some (JStr (js "John Doe and Thank You from New York"))) None ]
    [js "quality (11)"]
    [js "John Doe"]
    (js "info@realbiz.com").

(** A page without website and About tab whose only chip is labelled with
    the phrase but not with a count. *)
Definition passing_page : ListingObs :=
  page None 0 [] [] [chip "often mentioned in passing"]
       (Ok tt) (Ok tt) (Ok []).

(** What either program makes of it. *)
Definition passing_record : ListingRecord :=
  mkListing (js "https://maps/place/2") (JStr (js "Real Biz"))
    (JStr (js "Address: 1 Main St")) (JStr []) (JStr [])
    (JStr (js "4.5")) (js "1234") None [] [js "often mentioned in passing"]
    [] [].

(** A listing with a website whose navigation times out. *)
Definition timeout_page : ListingObs :=
  page (Some (js "https://realbiz.com")) 0 [] [] []
       (Ok tt) (Throw (js "page.goto: Timeout 15000ms exceeded.")) (Ok []).

(** ** Further notions *)

(** The [href]s that pass the test [if (href && ...)]: the non-empty
    strings, in order. *)
Definition href_strings (hrefs : list jsval) : list jsstring :=
  flat_map (fun href => match href with
                        | JStr (c :: s) => [c :: s]
                        | _ => []
                        end) hrefs.

(** [subseq l1 l2]: [l1] is [l2] with some elements left out, the others
    in the same order. *)
Inductive subseq {A : Type} : list A -> list A -> Prop :=
| subseq_nil : subseq [] []
| subseq_skip x l1 l2 : subseq l1 l2 -> subseq l1 (x :: l2)
| subseq_keep x l1 l2 : subseq l1 l2 -> subseq (x :: l1) (x :: l2).

(** A feed that shows some, but fewer than [MAX_RESULTS], results. *)
Definition short_of_results (n : nat) : Prop := 0 < n < MAX_RESULTS.

(** A run over one listing, the sample page, with a feed that shows
    enough results at once. *)
Definition sample_run_obs : RunObs :=
  mkRunObs (fun _ => 10) [JStr (js "https://maps/place/1"); JNull;
                          JStr (js "https://maps/place/1")]
           (fun _ => sample_page).

(** Whether a run of a statement ended in an exception. *)
Definition throws {S A} (r : outcome A * S) : bool :=
  match fst r with
  | Ok _ => false
  | Throw _ => true
  end.

(** The calls of the field resolver that sit in no [try] of their own. *)
Definition goto_throws (o : ListingObs) : bool :=
  match goto_listing o with
  | Ok _ => false
  | Throw _ => true
  end.

(** One of the three calls on a button throws, or its [data-item-id] is
    [null], so that [itemId.includes] raises a TypeError. *)
Definition button_throws (btn : ButtonObs) : bool :=
  match btn_textContent btn, btn_ariaLabel btn, btn_itemId btn with
  | Ok _, Ok _, Ok (JStr _) => false
  | _, _, _ => true
  end.

Definition buttons_throw (o : ListingObs) : bool :=
  match item_buttons o with
  | Ok buttons => existsb button_throws buttons
  | Throw _ => true
  end.

Definition link_throws (o : ListingObs) : bool :=
  match authority_link o with
  | Ok None => false
  | Ok (Some (Ok _)) => false
  | _ => true
  end.

Definition fields_throw (o : ListingObs) : bool :=
  goto_throws o || buttons_throw o || link_throws o.

(** The listing body from each of its stages on. *)
Definition after_rating (prog : program) (o : ListingObs) : M St unit :=
  match prog with
  | CLI => about_stage o
  | Server => ret tt
  end ;;
  harvest_stages prog o.

Definition after_website (prog : program) (o : ListingObs) : M St unit :=
  rating_stage o ;; after_rating prog o.

Definition after_buttons (prog : program) (o : ListingObs) : M St unit :=
  website_stage o ;; after_website prog o.

Definition after_name (prog : program) (o : ListingObs) : M St unit :=
  buttons_stage o ;; after_buttons prog o.

(** What the name block leaves in [data.name]. *)
Definition resolved_name (o : ListingObs) : jsval :=
  match h1_textContent o with
  | Ok v => v
  | Throw _ => JStr []
  end.

(** Resolving the rating throws: a call throws, or the stars label is
    [null] when it is split. *)
Definition rating_lookup_throws (o : ListingObs) : bool :=
  match stars_count o with
  | Throw _ => true
  | Ok n =>
      if positive n then
        match stars_aria o with
        | Ok (JStr _) => false
        | _ => true
        end
      else
        match text_rating_count o with
        | Throw _ => true
        | Ok m =>
            if positive m then
              match text_rating_text o with
              | Ok _ => false
              | Throw _ => true
              end
            else false
        end
  end.

(** The sample page, with the element count of the stars label failing. *)
Definition stars_failing_page : ListingObs :=
  mkListingObs
    (Ok tt) (Ok (JStr (js "Real Biz"))) (Ok []) (Ok None)
    (Throw (js "locator.count: Target closed")) (Ok JNull) (Ok 0) (Ok JNull)
    (Ok 1) (Ok (JStr (js "(1,234)"))) (Ok 0) (Ok JNull)
    (Ok 0) (Ok tt) (Ok [])
    (Ok 0) (Ok tt) (Ok tt) (Ok 0) (fun _ => Ok tt) (Ok []) (Ok [])
    (Ok [])
    (Ok tt) (Ok tt) (Ok []).

Definition stars_failing_record : ListingRecord :=
  mkListing (js "https://maps/place/4") (JStr (js "Real Biz"))
    (JStr []) (JStr []) (JStr []) (JStr []) [] None [] [] [] [].


(** The four tags of the About block, in the order it pushes them. *)
Definition known_tags : list jsstring :=
  map js ["Women-owned"; "Veteran-owned"; "Black-owned"; "Latino-owned"]%string.

(** Every open page was handed out before [next_page]. *)
Definition ctx_fresh (c : Context) : Prop :=
  forall p, In p (open_pages c) -> p < next_page c.

(** What one details button makes of a field fed by the buttons whose id
    contains [key]: its label, the [aria-label] when that is non-empty
    and the text otherwise, when the id contains [key]. *)
Definition pick_label (key : jsstring) (acc : jsval) (btn : ButtonObs) : jsval :=
  match btn_itemId btn, btn_ariaLabel btn, btn_textContent btn with
  | Ok (JStr itemId), Ok ariaLabel, Ok text =>
      if includes itemId key then js_or ariaLabel text else acc
  | _, _, _ => acc
  end.

(** The label of the last button whose id contains [key], the empty
    string when there is none. *)
Definition last_label (key : jsstring) (buttons : list ButtonObs) : jsval :=
  fold_left (pick_label key) buttons (JStr []).

(* ================================================================== *)
(** * The patterns on sample strings *)
(* ================================================================== *)

Example chip_match_quality :
  chip_match (js "quality, mentioned in 11 reviews") = Some (js "quality", js "11").
Proof. reflexivity. Qed.

Example chip_match_lazy_subject :
  chip_match (js "fast, friendly, mentioned in 1 review")
  = Some (js "fast, friendly", js "1").
Proof. reflexivity. Qed.

Example chip_match_none :
  chip_match (js "often mentioned in passing") = None.
Proof. reflexivity. Qed.

Example names_example :
  match_namePattern (js "Thanks, John Doe was great. Ask for Mary  Ann Smith or JOhn Doe")
  = [js "John Doe"; js "Mary  Ann"].
Proof. reflexivity. Qed.

Example emails_example :
  match_emailRegex (js "mail contact@example.com or <info@realbiz.com>; a@b x.y@z..q")
  = [js "contact@example.com"; js "info@realbiz.com"; js "x.y@z..q"].
Proof. reflexivity. Qed.

(* ================================================================== *)
(** * Facts about regular expressions *)
(* ================================================================== *)

Module RegexFacts.
Import Regex.

#[local] Hint Constructors lang : core.

Lemma nullable_lang r : nullable r = true <-> lang r [].
Proof.
  induction r; simpl; split; intros H; auto; try discriminate.
  - inversion H.
  - inversion H.
  - apply andb_true_iff in H. destruct H as [H1 H2].
    change (@nil N) with (@nil N ++ []). constructor; tauto.
  - inversion H; subst.
    match goal with E : _ ++ _ = [] |- _ =>
      apply app_eq_nil in E; destruct E; subst end.
    apply andb_true_iff. tauto.
  - apply orb_true_iff in H. destruct H; [apply L_alt_l | apply L_alt_r]; tauto.
  - apply orb_true_iff. inversion H; subst; tauto.
Qed.

(** A non-empty match of a star starts with a non-empty match of its body. *)
Lemma star_cons r c s :
  lang (Star r) (c :: s) ->
  exists s1 s2, s = s1 ++ s2 /\ lang r (c :: s1) /\ lang (Star r) s2.
Proof.
  intros H. remember (Star r) as q eqn:Eq. remember (c :: s) as t eqn:Et.
  revert c s Et. induction H; intros c0 s0 Et; try discriminate.
  inversion Eq; subst r0.
  destruct s1 as [|d s1'].
  - simpl in Et. apply IHlang2; auto.
  - simpl in Et. inversion Et; subst. exists s1', s2. auto.
Qed.

Lemma deriv_lang c r : forall s, lang (deriv c r) s <-> lang r (c :: s).
Proof.
  induction r; intros s; simpl.
  - split; intros H; inversion H.
  - split; intros H; inversion H.
  - destruct (p c) eqn:Ep; split; intros H; inversion H; subst; auto.
    congruence.
  - assert (Hcat : lang (Cat (deriv c r1) r2) s ->
                   lang (Cat r1 r2) (c :: s)).
    { intros H. inversion H; subst.
      change (c :: s1 ++ s2) with ((c :: s1) ++ s2).
      constructor; auto. apply IHr1; auto. }
    assert (Hsplit : lang (Cat r1 r2) (c :: s) ->
                     lang (Cat (deriv c r1) r2) s \/
                     (nullable r1 = true /\ lang (deriv c r2) s)).
    { intros H. inversion H; subst. destruct s1 as [|d s1'].
      - match goal with E : [] ++ _ = _ |- _ => simpl in E; subst end.
        right. split; [apply nullable_lang; auto | apply IHr2; auto].
      - match goal with E : (_ :: _) ++ _ = _ |- _ =>
          simpl in E; inversion E; subst end.
        left. constructor; auto. apply IHr1; auto. }
    destruct (nullable r1) eqn:En; split; intros H; auto.
    + inversion H; subst; auto.
      change (c :: s) with ([] ++ c :: s). constructor.
      * apply nullable_lang; auto.
      * apply IHr2; auto.
    + destruct (Hsplit H) as [H1 | [_ H1]]; auto.
    + destruct (Hsplit H) as [H1 | [H1 _]]; auto. discriminate.
  - split; intros H; inversion H; subst.
    + apply L_alt_l, IHr1; auto.
    + apply L_alt_r, IHr2; auto.
    + apply L_alt_l, IHr1; auto.
    + apply L_alt_r, IHr2; auto.
  - split; intros H.
    + inversion H; subst.
      change (c :: s1 ++ s2) with ((c :: s1) ++ s2).
      constructor; auto. apply IHr; auto.
    + destruct (star_cons _ _ _ H) as (s1 & s2 & -> & H1 & H2).
      constructor; auto. apply IHr; auto.
Qed.

Lemma test_lang r s : test r s = true <-> lang r s.
Proof.
  revert r. induction s as [|c s IH]; intros r; simpl.
  - apply nullable_lang.
  - rewrite IH. apply deriv_lang.
Qed.

(** ** Languages of the building blocks *)

Lemma lang_lit s : lang (Lit s) s.
Proof.
  induction s as [|c s IH]; simpl; auto.
  change (c :: s) with ([c] ++ s). constructor; auto.
  constructor. apply N.eqb_refl.
Qed.

Lemma lang_star_all p s :
  forallb p s = true -> lang (Star (Cls p)) s.
Proof.
  induction s as [|c s IH]; simpl; intros H; auto.
  apply andb_true_iff in H. destruct H as [Hc Hs].
  change (c :: s) with ([c] ++ s). auto.
Qed.

Lemma lang_plus_all p s :
  s <> [] -> forallb p s = true -> lang (Plus (Cls p)) s.
Proof.
  destruct s as [|c s]; [congruence|]. simpl. intros _ H.
  apply andb_true_iff in H. destruct H as [Hc Hs].
  change (c :: s) with ([c] ++ s). constructor; auto.
  apply lang_star_all; auto.
Qed.

End RegexFacts.

(* ================================================================== *)
(** * Facts about strings and arrays *)
(* ================================================================== *)

Lemma str_eqb_eq a b : str_eqb a b = true <-> a = b.
Proof.
  revert b. induction a as [|c a IH]; intros [|d b]; simpl;
    split; intros H; try discriminate; auto.
  - apply andb_true_iff in H. destruct H as [H1 H2].
    apply N.eqb_eq in H1. apply IH in H2. congruence.
  - inversion H; subst. rewrite N.eqb_refl. simpl. apply IH. reflexivity.
Qed.

Lemma arr_includes_In l x : arr_includes l x = true <-> In x l.
Proof.
  unfold arr_includes. rewrite existsb_exists. split.
  - intros (y & Hy & E). apply str_eqb_eq in E. subst. exact Hy.
  - intros H. exists x. split; [exact H | apply str_eqb_eq; reflexivity].
Qed.

Lemma arr_includes_false l x : arr_includes l x = false <-> ~ In x l.
Proof.
  rewrite <- arr_includes_In. destruct (arr_includes l x); split;
    intros H; congruence || (exfalso; apply H; reflexivity).
Qed.

Lemma span_spec p s a b :
  span p s = (a, b) ->
  s = a ++ b /\ forallb p a = true /\
  match b with [] => True | c :: _ => p c = false end.
Proof.
  revert a b. induction s as [|c s IH]; simpl; intros a b H.
  - inversion H; subst. auto.
  - destruct (p c) eqn:Ep.
    + destruct (span p s) as [a' b'] eqn:Es. inversion H; subst.
      destruct (IH a' b eq_refl) as (E & Ha & Hb). subst s.
      simpl. rewrite Ep. auto.
    + inversion H; subst. simpl. auto.
Qed.

Lemma stripPrefix_spec p s t : stripPrefix p s = Some t -> s = p ++ t.
Proof.
  revert s. induction p as [|c p IH]; intros [|d s]; simpl; intros H;
    try discriminate.
  - inversion H; reflexivity.
  - inversion H; reflexivity.
  - destruct (N.eqb_spec c d); [|discriminate]. subst. f_equal. auto.
Qed.

Lemma startsWith_spec p s : startsWith p s = true <-> exists t, s = p ++ t.
Proof.
  revert s. induction p as [|c p IH]; intros s; simpl.
  - split; eauto.
  - destruct s as [|d s].
    + split; [discriminate | intros (t & E); discriminate].
    + rewrite andb_true_iff, N.eqb_eq, IH. split.
      * intros (-> & t & ->). eauto.
      * intros (t & E). inversion E; subst. eauto.
Qed.

Lemma includes_spec s sub :
  includes s sub = true <-> exists a b, s = a ++ sub ++ b.
Proof.
  induction s as [|c s IH]; simpl.
  - rewrite orb_false_r, startsWith_spec. split.
    + intros (t & E). exists [], t. exact E.
    + intros (a & b & E). destruct a; simpl in E.
      * eauto.
      * discriminate.
  - rewrite orb_true_iff, startsWith_spec, IH. split.
    + intros [(t & E) | (a & b & E)].
      * exists [], t. exact E.
      * exists (c :: a), b. simpl. congruence.
    + intros (a & b & E). destruct a as [|d a]; simpl in E.
      * left. eauto.
      * right. inversion E; subst. eauto.
Qed.

Lemma endsWith_spec s suf : endsWith s suf = true <-> exists a, s = a ++ suf.
Proof.
  unfold endsWith. rewrite startsWith_spec. split.
  - intros (t & E). exists (rev t).
    rewrite <- (rev_involutive s), E, rev_app_distr, rev_involutive.
    reflexivity.
  - intros (a & ->). exists (rev a). apply rev_app_distr.
Qed.

(** Lower-casing keeps what already is lower case. *)
Lemma toLowerCase_fixed s : no_upper s = true -> toLowerCase s = s.
Proof.
  unfold no_upper, toLowerCase. induction s as [|c s IH]; simpl; auto.
  intros H. apply andb_true_iff in H. destruct H as [Hc Hs].
  unfold lower_unit. destruct (is_upper c); [discriminate|].
  f_equal. auto.
Qed.

Lemma includes_toLowerCase s sub :
  no_upper sub = true -> includes s sub = true ->
  includes (toLowerCase s) sub = true.
Proof.
  intros Hsub H. apply includes_spec in H. destruct H as (a & b & ->).
  apply includes_spec. exists (toLowerCase a), (toLowerCase b).
  rewrite <- (toLowerCase_fixed sub Hsub) at 2.
  unfold toLowerCase. rewrite !map_app. reflexivity.
Qed.

Lemma endsWith_toLowerCase s suf :
  no_upper suf = true -> endsWith s suf = true ->
  endsWith (toLowerCase s) suf = true.
Proof.
  intros Hsuf H. apply endsWith_spec in H. destruct H as (a & ->).
  apply endsWith_spec. exists (toLowerCase a).
  rewrite <- (toLowerCase_fixed suf Hsuf) at 2.
  unfold toLowerCase. rewrite map_app. reflexivity.
Qed.

(* ================================================================== *)
(** * Reasoning about statements *)
(* ================================================================== *)

Section Rules.
Context {S : Type}.
Implicit Types (P E I : S -> Prop).

Lemma triple_conseq {A} P P' (m : M S A) (Q Q' : A -> S -> Prop) E E' :
  triple P' m Q' E' ->
  (forall s, P s -> P' s) ->
  (forall a s, Q' a s -> Q a s) ->
  (forall s, E' s -> E s) ->
  triple P m Q E.
Proof.
  intros H HP HQ HE s Hs. specialize (H s (HP s Hs)).
  destruct (m s) as [[a|e] s']; auto.
Qed.

Lemma triple_bind {A B} P (m : M S A) (k : A -> M S B) R Q E :
  triple P m R E ->
  (forall a, triple (R a) (k a) Q E) ->
  triple P (bind m k) Q E.
Proof.
  intros Hm Hk s Hs. unfold bind. specialize (Hm s Hs).
  destruct (m s) as [[a|e] s']; auto. apply Hk; auto.
Qed.

Lemma triple_try_catch {A} P (m : M S A) h R Q E :
  triple P m Q R ->
  (forall e, triple R (h e) Q E) ->
  triple P (try_catch m h) Q E.
Proof.
  intros Hm Hh s Hs. unfold try_catch. specialize (Hm s Hs).
  destruct (m s) as [[a|e] s']; auto. apply Hh; auto.
Qed.

Lemma keeps_ret {A} I (a : A) : keeps I (ret a).
Proof. intros s Hs. exact Hs. Qed.

Lemma keeps_throw {A} I e : keeps I (@throw S A e).
Proof. intros s Hs. exact Hs. Qed.

Lemma keeps_await {A} I (o : outcome A) : keeps I (await o).
Proof. intros s Hs. unfold await. destruct o; exact Hs. Qed.

Lemma keeps_gets {A} I (f : S -> A) : keeps I (gets f).
Proof. intros s Hs. exact Hs. Qed.

Lemma keeps_modify I (f : S -> S) :
  (forall s, I s -> I (f s)) -> keeps I (modify f).
Proof. intros H s Hs. apply H, Hs. Qed.

Lemma keeps_bind {A B} I (m : M S A) (k : A -> M S B) :
  keeps I m -> (forall a, keeps I (k a)) -> keeps I (bind m k).
Proof. intros Hm Hk. eapply triple_bind; [exact Hm | exact Hk]. Qed.

(** The bound value of an awaited call is the one the observation holds. *)
Lemma keeps_await_bind {A B} I (o : outcome A) (k : A -> M S B) :
  (forall a, o = Ok a -> keeps I (k a)) -> keeps I (bind (await o) k).
Proof.
  intros Hk s Hs. unfold bind, await. destruct o as [a|e]; auto.
  apply (Hk a eq_refl); auto.
Qed.

Lemma keeps_try_catch {A} I (m : M S A) h :
  keeps I m -> (forall e, keeps I (h e)) -> keeps I (try_catch m h).
Proof. intros Hm Hh. eapply triple_try_catch; [exact Hm | exact Hh]. Qed.

Lemma keeps_when I c (m : M S unit) : keeps I m -> keeps I (when c m).
Proof. intros Hm. destruct c; simpl; [exact Hm | apply keeps_ret]. Qed.

Lemma keeps_for_of {A} I (l : list A) (body : A -> M S unit) :
  (forall x, In x l -> keeps I (body x)) -> keeps I (for_of l body).
Proof.
  induction l as [|x l IH]; simpl; intros H.
  - apply keeps_ret.
  - apply keeps_bind.
    + apply H. left. reflexivity.
    + intros _. apply IH. intros y Hy. apply H. right. exact Hy.
Qed.

Lemma keeps_non_null I v : keeps I (@non_null S v).
Proof. destruct v; [apply keeps_throw | apply keeps_ret]. Qed.

Lemma keeps_or_query I first second : keeps I (@or_query S first second).
Proof. destruct first; [apply keeps_ret | apply keeps_await]. Qed.

End Rules.

(** Decomposing a statement along its structure.  What is left are the
    assignments, which are specific to the invariant. *)
Ltac keeps_step :=
  match goal with
  | |- keeps _ (bind (await _) _) =>
      apply keeps_await_bind; let E := fresh "Eobs" in intros ? E
  | |- keeps _ (bind _ _) => apply keeps_bind; [| intros ?]
  | |- keeps _ (ret _) => apply keeps_ret
  | |- keeps _ (throw _) => apply keeps_throw
  | |- keeps _ (await _) => apply keeps_await
  | |- keeps _ (gets _) => apply keeps_gets
  | |- keeps _ (non_null _) => apply keeps_non_null
  | |- keeps _ (or_query _ _) => apply keeps_or_query
  | |- keeps _ (try_catch _ _) => apply keeps_try_catch; [| intros ?]
  | |- keeps _ (when _ _) => apply keeps_when
  | |- keeps _ (if ?c then _ else _) => destruct c eqn:?
  | |- keeps _ (match ?x with Some _ => _ | None => _ end) => destruct x eqn:?
  | |- keeps _ (match ?x with CLI => _ | Server => _ end) => destruct x eqn:?
  | |- keeps _ (match ?x with nil => _ | cons _ _ => _ end) => destruct x eqn:?
  end.

Lemma keeps_on_data (I : ListingRecord -> Prop) f :
  (forall d, I d -> I (f d)) -> keeps (on_record I) (on_data f).
Proof. intros H. apply keeps_modify. intros s Hs. apply H, Hs. Qed.

(* ================================================================== *)
(** * The field resolver leaves the harvested fields alone *)
(* ================================================================== *)

Lemma newPage_keeps I o : keeps (on_record I) (newPage o).
Proof.
  intros s Hs. unfold newPage. destruct (new_page o); exact Hs.
Qed.

Lemma close_keeps I p : keeps (on_record I) (close p).
Proof. intros s Hs. exact Hs. Qed.

(** Statements whose assignments do not show through [f] keep an
    invariant that is blind to all but [f]. *)
Ltac keeps_fields Hblind :=
  repeat first
    [ keeps_step
    | apply keeps_for_of; intros ? ?
    | apply newPage_keeps
    | apply close_keeps
    | apply keeps_on_data; intros ? ?; eapply Hblind; [| eassumption];
      reflexivity ].

Section FieldStages.
Variable I : ListingRecord -> Prop.
Hypothesis Hblind : field_blind I.
Variable o : ListingObs.

Lemma name_stage_keeps : keeps (on_record I) (name_stage o).
Proof. unfold name_stage. keeps_fields Hblind. Qed.

Lemma buttons_stage_keeps : keeps (on_record I) (buttons_stage o).
Proof. unfold buttons_stage, button_step. keeps_fields Hblind. Qed.

Lemma website_stage_keeps : keeps (on_record I) (website_stage o).
Proof. unfold website_stage. keeps_fields Hblind. Qed.

Lemma rating_stage_keeps : keeps (on_record I) (rating_stage o).
Proof. unfold rating_stage. keeps_fields Hblind. Qed.

Lemma about_stage_keeps : keeps (on_record I) (about_stage o).
Proof. unfold about_stage. keeps_fields Hblind. Qed.

Lemma field_stages_keeps prog : keeps (on_record I) (field_stages o prog).
Proof.
  unfold field_stages.
  apply keeps_bind; [apply keeps_await | intros _].
  apply keeps_bind; [apply name_stage_keeps | intros _].
  apply keeps_bind; [apply buttons_stage_keeps | intros _].
  apply keeps_bind; [apply website_stage_keeps | intros _].
  apply keeps_bind; [apply rating_stage_keeps | intros _].
  destruct prog; [apply about_stage_keeps | apply keeps_ret].
Qed.

End FieldStages.

(** The listing body, regrouped. *)
Lemma listing_body_split prog o s :
  listing_body prog o s
  = bind (field_stages o prog)
         (fun _ => bind (reviews_stage o) (fun _ => email_stage prog o)) s.
Proof.
  unfold listing_body, field_stages, bind.
  destruct (await (goto_listing o) s) as [[a|e] s1]; auto.
  destruct (name_stage o s1) as [[a1|e] s2]; auto.
  destruct (buttons_stage o s2) as [[a2|e] s3]; auto.
  destruct (website_stage o s3) as [[a3|e] s4]; auto.
  destruct (rating_stage o s4) as [[a4|e] s5]; auto.
Qed.

(** How an invariant of the produced record is established: it holds of
    the empty harvest with [P], the reviews block turns [P] into [Q], and
    the email block keeps [Q]. *)
Lemma produced_record (P Q : ListingRecord -> Prop) prog u o c d c' :
  field_blind P ->
  P (new_data u) ->
  triple (on_record P) (reviews_stage o) (fun _ => on_record Q) (on_record Q) ->
  keeps (on_record Q) (email_stage prog o) ->
  scrape_listing prog u o c = (Some d, c') ->
  Q d.
Proof.
  intros Hblind H0 Hrev Hemail Hrun.
  unfold scrape_listing in Hrun. rewrite listing_body_split in Hrun.
  assert (T : triple (on_record P)
                (bind (field_stages o prog)
                   (fun _ => bind (reviews_stage o) (fun _ => email_stage prog o)))
                (fun _ => on_record Q) (fun _ => True)).
  { eapply triple_bind with (R := fun _ => on_record P).
    - eapply triple_conseq;
        [apply (field_stages_keeps P Hblind o prog) | auto ..].
    - intros _. eapply triple_bind with (R := fun _ => on_record Q).
      + eapply triple_conseq; [exact Hrev | auto ..].
      + intros _. eapply triple_conseq; [exact Hemail | auto ..]. }
  specialize (T (mkSt (new_data u) c) H0).
  destruct (bind _ _ _) as [[a|e] s']; inversion Hrun; subst. exact T.
Qed.

Section MoreRules.
Context {S : Type}.
Implicit Types (P E : S -> Prop).

Lemma triple_ret {A} P (a : A) (Q : A -> S -> Prop) E :
  (forall s, P s -> Q a s) -> triple P (ret a) Q E.
Proof. intros H s Hs. apply H, Hs. Qed.

(** A statement that keeps [P], followed by the one that does the work. *)
Lemma triple_after {A B} P (m : M S A) (k : A -> M S B) Q E :
  keeps P m ->
  (forall s, P s -> E s) ->
  (forall a, triple P (k a) Q E) ->
  triple P (bind m k) Q E.
Proof.
  intros Hm HE Hk. eapply triple_bind with (R := fun _ => P).
  - eapply triple_conseq; [exact Hm | auto ..].
  - exact Hk.
Qed.

Lemma triple_after_await {A B} P (o : outcome A) (k : A -> M S B) Q E :
  (forall s, P s -> E s) ->
  (forall a, o = Ok a -> triple P (k a) Q E) ->
  triple P (bind (await o) k) Q E.
Proof.
  intros HE Hk s Hs. unfold bind, await. destruct o as [a|e]; auto.
  apply (Hk a eq_refl); auto.
Qed.

End MoreRules.

(* ================================================================== *)
(** * Reviews *)
(* ================================================================== *)

Lemma review_loop_cons el rest s :
  review_loop (el :: rest) s
  = let s1 := if has_some_data (extract_review el)
              then mkSt (push_review (extract_review el) (data s)) (context s)
              else s in
    if 10 <=? length (reviews (data s1)) then (Ok tt, s1)
    else review_loop rest s1.
Proof.
  cbn [review_loop]. unfold bind, when, gets, on_data, modify, ret.
  destruct (has_some_data (extract_review el)); cbv zeta; cbn [data];
    destruct (10 <=? _); reflexivity.
Qed.

Lemma review_loop_ok o all els :
  review_elements o = Ok all ->
  incl els all ->
  triple (fun s => length (reviews (data s)) < 10 /\
                   Forall (harvested_from o) (reviews (data s)))
         (review_loop els)
         (fun _ => on_record (reviews_ok o))
         (on_record (reviews_ok o)).
Proof.
  intros Hall. induction els as [|el els IH]; intros Hincl s [Hlen Hall_ok].
  - cbn [review_loop ret]. split; [lia | exact Hall_ok].
  - rewrite review_loop_cons.
    assert (Hrest : incl els all) by (intros x Hx; apply Hincl; right; exact Hx).
    set (s1 := if has_some_data (extract_review el) then _ else s).
    assert (H1 : length (reviews (data s1)) <= 10 /\
                 Forall (harvested_from o) (reviews (data s1))).
    { subst s1. destruct (has_some_data (extract_review el)) eqn:Hdata.
      - cbn [data push_review set_reviews reviews]. split.
        + rewrite length_app. simpl. lia.
        + apply Forall_app. split; [exact Hall_ok|].
          constructor; [|constructor]. split; [exact Hdata|].
          exists all, el. repeat split; auto. apply Hincl. left. reflexivity.
      - split; [lia | exact Hall_ok]. }
    cbv zeta. destruct (10 <=? length (reviews (data s1))) eqn:Hten.
    + exact H1.
    + apply Nat.leb_gt in Hten. apply IH; [exact Hrest|]. split; [exact Hten | tauto].
Qed.

Lemma no_reviews_blind : blind_to reviews no_reviews.
Proof. unfold blind_to, no_reviews. congruence. Qed.

Lemma reviews_ok_blind o : blind_to reviews (reviews_ok o).
Proof. unfold blind_to, reviews_ok. intros d d' E. rewrite E. auto. Qed.

Lemma no_reviews_ok o d : no_reviews d -> reviews_ok o d.
Proof.
  unfold no_reviews, reviews_ok. intros ->. split; [simpl; lia | constructor].
Qed.

Lemma harvest_reviews_ok o :
  triple (on_record no_reviews) (harvest_reviews o)
         (fun _ => on_record (reviews_ok o)) (on_record (reviews_ok o)).
Proof.
  assert (HE : forall s, on_record no_reviews s -> on_record (reviews_ok o) s)
    by (intros s; apply no_reviews_ok).
  unfold harvest_reviews.
  apply triple_after_await; [exact HE | intros n _].
  destruct (positive n); [| apply triple_ret; intros s Hs; apply HE, Hs].
  apply triple_after;
    [keeps_fields no_reviews_blind | exact HE | intros _].
  apply triple_after;
    [keeps_fields no_reviews_blind | exact HE | intros _].
  apply triple_after;
    [keeps_fields no_reviews_blind | exact HE | intros c].
  apply triple_after;
    [keeps_fields no_reviews_blind | exact HE | intros _].
  apply triple_after;
    [keeps_fields no_reviews_blind | exact HE | intros moreButtons].
  apply triple_after;
    [unfold expand_texts; keeps_fields no_reviews_blind | exact HE | intros _].
  apply triple_after_await; [exact HE | intros els Hels].
  eapply triple_conseq;
    [apply (review_loop_ok o els els Hels (incl_refl els))
    | | auto | auto].
  intros s Hs. unfold on_record, no_reviews in Hs. cbv beta. rewrite Hs.
  split; [simpl; lia | constructor].
Qed.

Lemma reviews_stage_reviews_ok o :
  triple (on_record no_reviews) (reviews_stage o)
         (fun _ => on_record (reviews_ok o)) (on_record (reviews_ok o)).
Proof.
  unfold reviews_stage.
  eapply triple_try_catch with (R := on_record (reviews_ok o)).
  - eapply triple_bind with (R := fun _ => on_record (reviews_ok o)).
    + apply harvest_reviews_ok.
    + intros _. change (keeps (on_record (reviews_ok o))
                          (scan_categories o ;; scan_names)).
      unfold scan_categories, chip_step, scan_names.
      keeps_fields (reviews_ok_blind o).
  - intros e. apply keeps_ret.
Qed.

Lemma email_stage_keeps_reviews_ok prog o :
  keeps (on_record (reviews_ok o)) (email_stage prog o).
Proof.
  unfold email_stage, harvest_email, email_catch.
  keeps_fields (reviews_ok_blind o).
Qed.

(** ** Keys that are never set *)

Lemma keeps_or_query_bind {S B} (I : S -> Prop) first second
      (k : option ElemObs -> M S B) :
  (forall r, (first <> None /\ r = first) \/ (first = None /\ second = Ok r) ->
             keeps I (k r)) ->
  keeps I (bind (or_query first second) k).
Proof.
  intros Hk. destruct first as [e|]; simpl.
  - intros s Hs. unfold bind, ret. apply (Hk (Some e)); auto.
    left. split; [discriminate | reflexivity].
  - apply keeps_await_bind. intros r Er. apply Hk. right. auto.
Qed.

Ltac absent_step :=
  first
    [ congruence
    | match goal with
      | H : _ \/ _ |- _ => destruct H as [[? ?] | [? ?]]; subst
      | |- keeps _ (bind (or_query _ _) _) =>
          apply keeps_or_query_bind; intros ? ?
      end
    | keeps_step
    | apply keeps_modify; intros ? ?; assumption ].

Lemma extract_review_from_keeps (I : Review.t -> Prop) reviewEl :
  I Review.empty ->
  keeps I (review_fields reviewEl) ->
  I (extract_review reviewEl).
Proof.
  intros H0 K. unfold extract_review, try_catch.
  specialize (K Review.empty H0).
  destruct (review_fields reviewEl Review.empty) as [[a|e] r]; exact K.
Qed.

Lemma reviewer_absent reviewEl :
  reviewer_unresolved reviewEl ->
  Review.reviewer (extract_review reviewEl) = None.
Proof.
  intros (H1 & H2 & H3).
  apply (extract_review_from_keeps (fun r => Review.reviewer r = None));
    [reflexivity|].
  unfold review_fields. repeat absent_step.
Qed.

Lemma rating_absent reviewEl :
  q_stars reviewEl = Ok None ->
  Review.rating (extract_review reviewEl) = None.
Proof.
  intros H.
  apply (extract_review_from_keeps (fun r => Review.rating r = None));
    [reflexivity|].
  unfold review_fields. repeat absent_step.
Qed.

Lemma text_absent reviewEl :
  text_unresolved reviewEl ->
  Review.text (extract_review reviewEl) = None.
Proof.
  intros (H1 & H2).
  apply (extract_review_from_keeps (fun r => Review.text r = None));
    [reflexivity|].
  unfold review_fields. repeat absent_step.
Qed.

Lemma time_absent reviewEl :
  q_rsqaWe reviewEl = Ok None ->
  Review.time (extract_review reviewEl) = None.
Proof.
  intros H.
  apply (extract_review_from_keeps (fun r => Review.time r = None));
    [reflexivity|].
  unfold review_fields. repeat absent_step.
Qed.

(* ================================================================== *)
(** * Produced records *)
(* ================================================================== *)

(** The pass of scraper.js over the sample page: the record, and the
    secondary page opened and closed again. *)
Example sample_run :
  scrape_listing CLI (js "https://maps/place/1") sample_page ctx0
  = (Some sample_record, mkContext 1 []).
Proof. vm_compute. reflexivity. Qed.

Lemma sample_produced : produced CLI sample_page sample_record.
Proof. exists (js "https://maps/place/1"), ctx0, (mkContext 1 []). apply sample_run. Qed.

(** Every record of a run was produced by the pass over its page. *)
Lemma scrape_urls_produced prog obs urls :
  forall c d, In d (fst (scrape_urls prog obs urls c)) ->
  exists u, In u urls /\ produced prog (obs u) d.
Proof.
  induction urls as [|u urls IH]; simpl; intros c d H; [contradiction|].
  destruct (scrape_listing prog u (obs u) c) as [r c1] eqn:E1.
  destruct (scrape_urls prog obs urls c1) as [rs c2] eqn:E2.
  simpl in H.
  assert (Hrs : In d rs -> exists u0, In u0 urls /\ produced prog (obs u0) d).
  { intros Hd. apply (IH c1). rewrite E2. exact Hd. }
  destruct r as [d0|].
  - destruct H as [<- | H].
    + exists u. split; [left; reflexivity | exists u, c, c1; exact E1].
    + destruct (Hrs H) as (u0 & Hu & Hp). exists u0. auto.
  - destruct (Hrs H) as (u0 & Hu & Hp). exists u0. auto.
Qed.

Lemma runScraper_produced prog fuel ro records d :
  runScraper prog fuel ro = Some records -> In d records ->
  exists u, produced prog (listing_obs ro u) d.
Proof.
  unfold runScraper. destruct (scroll_loop fuel (feed ro) 0); [|discriminate].
  intros E Hd. inversion E; subst.
  destruct (scrape_urls_produced _ _ _ _ _ Hd) as (u & _ & Hp). eauto.
Qed.

Lemma truthy_field_nonempty f :
  truthy_field f = true -> exists s, s <> [] /\ f = Some (JStr s).
Proof.
  destruct f as [[|[|c s]]|]; simpl; intros H; try discriminate.
  exists (c :: s). split; [discriminate | reflexivity].
Qed.

Lemma produced_reviews_ok prog o d : produced prog o d -> reviews_ok o d.
Proof.
  intros (u & c & c' & Hrun).
  apply (produced_record no_reviews (reviews_ok o) prog u o c d c'); auto.
  - intros d1 d2 E. unfold no_reviews. unfold harvest_view in E.
    inversion E. congruence.
  - reflexivity.
  - apply reviews_stage_reviews_ok.
  - apply email_stage_keeps_reviews_ok.
Qed.

(** C6.  Every produced record holds at most ten reviews, and each review
    in it has a non-empty reviewer, text or rating. *)
Theorem reviews_capped_and_nonempty prog o d :
  produced prog o d ->
  length (reviews d) <= 10 /\
  forall review, In review (reviews d) ->
    exists s, s <> [] /\
      (Review.reviewer review = Some (JStr s) \/
       Review.text review = Some (JStr s) \/
       Review.rating review = Some (JStr s)).
Proof.
  intros Hp. destruct (produced_reviews_ok _ _ _ Hp) as [Hlen Hall].
  split; [exact Hlen|]. intros review Hin.
  rewrite Forall_forall in Hall. destruct (Hall review Hin) as [Hdata _].
  unfold has_some_data in Hdata.
  apply orb_true_iff in Hdata. destruct Hdata as [Hdata | Hdata].
  - apply orb_true_iff in Hdata. destruct Hdata as [Hdata | Hdata];
      destruct (truthy_field_nonempty _ Hdata) as (s & Hs & E); exists s; auto.
  - destruct (truthy_field_nonempty _ Hdata) as (s & Hs & E); exists s; auto.
Qed.

Lemma reviews_capped_and_nonempty_witness :
  length (reviews sample_record) <= 10 /\
  forall review, In review (reviews sample_record) ->
    exists s, s <> [] /\
      (Review.reviewer review = Some (JStr s) \/
       Review.text review = Some (JStr s) \/
       Review.rating review = Some (JStr s)).
Proof.
  apply (reviews_capped_and_nonempty CLI sample_page sample_record).
  exact sample_produced.
Defined.

(** C10.  Every review of a produced record was read from a review
    element of the page, and a field whose selector chain found no element
    there is a key that was never set on the review. *)
Theorem unresolved_review_fields_absent prog o d review :
  produced prog o d ->
  In review (reviews d) ->
  exists reviewElements reviewEl,
    review_elements o = Ok reviewElements /\
    In reviewEl reviewElements /\
    review = extract_review reviewEl /\
    (reviewer_unresolved reviewEl -> Review.reviewer review = None) /\
    (q_stars reviewEl = Ok None -> Review.rating review = None) /\
    (text_unresolved reviewEl -> Review.text review = None) /\
    (q_rsqaWe reviewEl = Ok None -> Review.time review = None).
Proof.
  intros Hp Hin. destruct (produced_reviews_ok _ _ _ Hp) as [_ Hall].
  rewrite Forall_forall in Hall.
  destruct (Hall review Hin) as (_ & els & el & Hels & Hel & ->).
  exists els, el. repeat split; auto.
  - apply reviewer_absent.
  - apply rating_absent.
  - apply text_absent.
  - apply time_absent.
Qed.

Lemma unresolved_review_fields_absent_witness :
  exists reviewElements reviewEl,
    review_elements sample_page = Ok reviewElements /\
    In reviewEl reviewElements /\
    Review.mk (Some (JStr (js "John Roe"))) (Some (JStr (js "5 stars")))
              (Some (JStr (js "Thanks, John Doe was great"))) None
    = extract_review reviewEl /\
    (reviewer_unresolved reviewEl ->
     Review.reviewer (Review.mk (Some (JStr (js "John Roe"))) (Some (JStr (js "5 stars")))
              (Some (JStr (js "Thanks, John Doe was great"))) None) = None) /\
    (q_stars reviewEl = Ok None ->
     Review.rating (Review.mk (Some (JStr (js "John Roe"))) (Some (JStr (js "5 stars")))
              (Some (JStr (js "Thanks, John Doe was great"))) None) = None) /\
    (text_unresolved reviewEl ->
     Review.text (Review.mk (Some (JStr (js "John Roe"))) (Some (JStr (js "5 stars")))
              (Some (JStr (js "Thanks, John Doe was great"))) None) = None) /\
    (q_rsqaWe reviewEl = Ok None ->
     Review.time (Review.mk (Some (JStr (js "John Roe"))) (Some (JStr (js "5 stars")))
              (Some (JStr (js "Thanks, John Doe was great"))) None) = None).
Proof.
  apply (unresolved_review_fields_absent CLI sample_page sample_record).
  - exact sample_produced.
  - simpl. left. reflexivity.
Defined.

(* ================================================================== *)
(** * Review categories *)
(* ================================================================== *)

Lemma chip_tail_spec s count :
  chip_tail s = Some count ->
  count <> [] /\ forallb is_digit count = true /\
  exists ws suffix,
    forallb is_space ws = true /\
    (suffix = js " review" \/ suffix = js " reviews") /\
    s = ws ++ js "mentioned in " ++ count ++ suffix.
Proof.
  unfold chip_tail. intros H.
  destruct (stripPrefix (js "mentioned in ") (dropWhile is_space s))
    as [s2|] eqn:E1; [|discriminate].
  destruct (span is_digit s2) as [ds s3] eqn:E2.
  destruct ds as [|d ds]; [discriminate|].
  destruct (str_eqb s3 (js " review") || str_eqb s3 (js " reviews")) eqn:E3;
    [|discriminate].
  inversion H; subst count. clear H.
  apply stripPrefix_spec in E1.
  apply span_spec in E2. destruct E2 as (E2 & Hd & _).
  split; [discriminate|]. split; [exact Hd|].
  assert (Hdrop : forall t, exists ws, forallb is_space ws = true /\
                                        t = ws ++ dropWhile is_space t).
  { induction t as [|c t IHt]; simpl.
    - exists []. auto.
    - destruct (is_space c) eqn:Ec.
      + destruct IHt as (ws & Hws & Et). exists (c :: ws). simpl.
        rewrite Ec, Hws. split; [reflexivity | congruence].
      + exists []. auto. }
  destruct (Hdrop s) as (ws & Hws & Es).
  exists ws, s3. split; [exact Hws|]. split.
  - apply orb_true_iff in E3. destruct E3 as [E3 | E3];
      apply str_eqb_eq in E3; auto.
  - rewrite Es at 1. rewrite E1, E2. reflexivity.
Qed.

Lemma chip_scan_spec s : forall acc subject count,
  forallb is_dot acc = true ->
  chip_scan acc s = Some (subject, count) ->
  subject <> [] /\ forallb is_dot subject = true /\
  exists rest, acc ++ s = subject ++ 44%N :: rest /\ chip_tail rest = Some count.
Proof.
  induction s as [|c s IH]; simpl; intros acc subject count Hacc H;
    [discriminate|].
  destruct (match acc with
            | [] => None
            | _ :: _ => if (c =? 44)%N then chip_tail s else None
            end) as [cnt|] eqn:Ehere.
  - inversion H; subst. destruct subject as [|a acc']; [discriminate|].
    destruct (N.eqb_spec c 44); [|discriminate]. subst c.
    split; [discriminate|]. split; [exact Hacc|].
    exists s. auto.
  - destruct (is_line_terminator c) eqn:Elt; [discriminate|].
    destruct (IH (acc ++ [c]) subject count) as (Hne & Hdot & rest & E & Ht);
      auto.
    + rewrite forallb_app, Hacc. simpl. unfold is_dot. rewrite Elt. reflexivity.
    + split; [exact Hne|]. split; [exact Hdot|]. exists rest.
      rewrite <- app_assoc in E. auto.
Qed.

Lemma entry_shape subject count :
  subject <> [] -> forallb is_dot subject = true ->
  count <> [] -> forallb is_digit count = true ->
  Regex.lang entry_re (subject ++ js " (" ++ count ++ js ")").
Proof.
  intros. unfold entry_re.
  repeat (apply Regex.L_cat);
    auto using RegexFacts.lang_plus_all, RegexFacts.lang_lit.
Qed.

(** ** The chip search finds a match exactly when the label matches the
    chip pattern *)

Module RegexInv.
Import Regex.

Lemma cat_inv r1 r2 s :
  lang (Cat r1 r2) s -> exists s1 s2, s = s1 ++ s2 /\ lang r1 s1 /\ lang r2 s2.
Proof. intros H. inversion H; subst. eauto. Qed.

Lemma cls_inv p s : lang (Cls p) s -> exists c, s = [c] /\ p c = true.
Proof. intros H. inversion H; subst. eauto. Qed.

Lemma star_cls_inv p s : lang (Star (Cls p)) s -> forallb p s = true.
Proof.
  intros H. remember (Star (Cls p)) as r eqn:Er.
  induction H; try discriminate; inversion Er; subst; auto.
  inversion H; subst. simpl.
  match goal with E : p _ = true |- _ => rewrite E end. auto.
Qed.

Lemma plus_cls_inv p s :
  lang (Plus (Cls p)) s -> s <> [] /\ forallb p s = true.
Proof.
  intros H. apply cat_inv in H. destruct H as (s1 & s2 & -> & H1 & H2).
  apply cls_inv in H1. destruct H1 as (c & -> & Hc).
  apply star_cls_inv in H2. simpl. rewrite Hc, H2. split; [discriminate | auto].
Qed.

Lemma lit_inv l s : lang (Lit l) s -> s = l.
Proof.
  revert s. induction l as [|c l IH]; simpl; intros s H.
  - inversion H. reflexivity.
  - apply cat_inv in H. destruct H as (s1 & s2 & -> & H1 & H2).
    apply cls_inv in H1. destruct H1 as (d & -> & Hd).
    apply N.eqb_eq in Hd. subst d. simpl. f_equal. auto.
Qed.

Lemma opt_inv r s : lang (Opt r) s -> lang r s \/ s = [].
Proof. intros H. inversion H; subst; auto. inversion H3. auto. Qed.

Lemma cat_intro r1 r2 s s1 s2 :
  lang r1 s1 -> lang r2 s2 -> s = s1 ++ s2 -> lang (Cat r1 r2) s.
Proof. intros H1 H2 ->. constructor; auto. Qed.

End RegexInv.

Lemma dropWhile_app p ws t :
  forallb p ws = true ->
  match t with [] => True | c :: _ => p c = false end ->
  dropWhile p (ws ++ t) = t.
Proof.
  intros Hws Ht. induction ws as [|c ws IH]; simpl in *.
  - destruct t as [|c t]; simpl; auto. rewrite Ht. reflexivity.
  - apply andb_true_iff in Hws. destruct Hws as [Hc Hws]. rewrite Hc. auto.
Qed.

Lemma span_app p a t :
  forallb p a = true ->
  match t with [] => True | c :: _ => p c = false end ->
  span p (a ++ t) = (a, t).
Proof.
  intros Ha Ht. induction a as [|c a IH]; simpl in *.
  - destruct t as [|c t]; simpl; auto. rewrite Ht. reflexivity.
  - apply andb_true_iff in Ha. destruct Ha as [Hc Ha]. rewrite Hc, IH; auto.
Qed.

Lemma stripPrefix_app p t : stripPrefix p (p ++ t) = Some t.
Proof.
  induction p as [|c p IH]; simpl.
  - destruct t; reflexivity.
  - rewrite N.eqb_refl. exact IH.
Qed.

Lemma chip_tail_complete ws count suffix :
  forallb is_space ws = true ->
  count <> [] -> forallb is_digit count = true ->
  suffix = js " review" \/ suffix = js " reviews" ->
  chip_tail (ws ++ js "mentioned in " ++ count ++ suffix) = Some count.
Proof.
  intros Hws Hne Hd Hsuf. unfold chip_tail.
  rewrite dropWhile_app; [| exact Hws | reflexivity].
  rewrite stripPrefix_app.
  rewrite span_app; [| exact Hd | destruct Hsuf; subst; reflexivity].
  destruct count as [|d ds]; [congruence|].
  destruct Hsuf; subst; reflexivity.
Qed.

Lemma chip_scan_complete rest count : chip_tail rest = Some count ->
  forall subject acc,
    forallb is_dot subject = true ->
    acc ++ subject <> [] ->
    chip_scan acc (subject ++ 44%N :: rest) <> None.
Proof.
  intros Ht. induction subject as [|c t IH]; intros acc Hdot Hne; simpl.
  - rewrite app_nil_r in Hne. destruct acc as [|a acc]; [congruence|].
    rewrite Ht. discriminate.
  - simpl in Hdot. apply andb_true_iff in Hdot. destruct Hdot as [Hc Hdot].
    destruct (match acc with
              | [] => None
              | _ :: _ =>
                  if (c =? 44)%N then chip_tail (t ++ 44%N :: rest) else None
              end); [discriminate|].
    unfold is_dot in Hc. destruct (is_line_terminator c); [discriminate|].
    apply IH; auto. destruct acc; discriminate.
Qed.

Lemma chip_match_iff label :
  (exists subject count, chip_match label = Some (subject, count))
  <-> Regex.lang chip_re label.
Proof.
  split.
  - intros (subject & count & Hm). unfold chip_match in Hm.
    destruct (chip_scan_spec label [] subject count eq_refl Hm)
      as (Hne & Hdot & rest & E & Ht).
    destruct (chip_tail_spec _ _ Ht) as (Hc & Hd & ws & suffix & Hws & Hsuf & Er).
    simpl in E. subst label rest. unfold chip_re.
    eapply RegexInv.cat_intro with (s1 := subject);
      [apply RegexFacts.lang_plus_all; assumption | | reflexivity].
    eapply RegexInv.cat_intro with (s1 := [44%N]);
      [constructor; reflexivity | | reflexivity].
    eapply RegexInv.cat_intro with (s1 := ws);
      [apply RegexFacts.lang_star_all; assumption | | reflexivity].
    eapply RegexInv.cat_intro with (s1 := js "mentioned in ");
      [apply RegexFacts.lang_lit | | reflexivity].
    eapply RegexInv.cat_intro with (s1 := count);
      [apply RegexFacts.lang_plus_all; assumption | | reflexivity].
    destruct Hsuf; subst suffix.
    + eapply RegexInv.cat_intro with (s1 := js " review") (s2 := []);
        [apply RegexFacts.lang_lit | apply Regex.L_alt_r; constructor | reflexivity].
    + eapply RegexInv.cat_intro with (s1 := js " review") (s2 := [115%N]);
        [apply RegexFacts.lang_lit
        | apply Regex.L_alt_l; constructor; reflexivity | reflexivity].
  - intros H. unfold chip_re in H.
    apply RegexInv.cat_inv in H. destruct H as (subject & s1 & -> & Hsub & H).
    apply RegexInv.cat_inv in H. destruct H as (comma & s2 & -> & Hcomma & H).
    apply RegexInv.cat_inv in H. destruct H as (ws & s3 & -> & Hws & H).
    apply RegexInv.cat_inv in H. destruct H as (lit & s4 & -> & Hlit & H).
    apply RegexInv.cat_inv in H. destruct H as (count & s5 & -> & Hcount & H).
    apply RegexInv.cat_inv in H. destruct H as (rev & s6 & -> & Hrev & Hs).
    apply RegexInv.plus_cls_inv in Hsub. destruct Hsub as [Hne Hdot].
    apply RegexInv.cls_inv in Hcomma. destruct Hcomma as (c & -> & Hc).
    apply N.eqb_eq in Hc. subst c.
    apply RegexInv.star_cls_inv in Hws.
    apply RegexInv.lit_inv in Hlit. subst lit.
    apply RegexInv.plus_cls_inv in Hcount. destruct Hcount as [Hcne Hd].
    apply RegexInv.lit_inv in Hrev. subst rev.
    assert (Hsuf : js " review" ++ s6 = js " review"
                   \/ js " review" ++ s6 = js " reviews").
    { apply RegexInv.opt_inv in Hs. destruct Hs as [Hs | ->].
      - apply RegexInv.cls_inv in Hs. destruct Hs as (c & -> & Hc).
        apply N.eqb_eq in Hc. subst c. right. reflexivity.
      - left. reflexivity. }
    pose proof (chip_tail_complete ws count _ Hws Hcne Hd Hsuf) as Ht.
    pose proof (chip_scan_complete _ _ Ht subject [] Hdot) as Hscan.
    unfold chip_match. simpl in Hscan.
    destruct (chip_scan [] (subject ++ 44%N :: ws ++ js "mentioned in " ++ count ++ js " review" ++ s6))
      as [[sb ct]|] eqn:E.
    + exists sb, ct. exact E.
    + exfalso. apply Hscan; auto.
Qed.

Lemma category_entry_spec categoryText entry :
  category_entry categoryText = Some entry ->
  exists label,
    categoryText = JStr label /\
    includes label (js "mentioned in") = true /\
    ((Regex.lang chip_re label /\
      exists subject count,
        chip_match label = Some (subject, count) /\
        entry = subject ++ js " (" ++ count ++ js ")" /\
        Regex.lang entry_re entry)
     \/ (~ Regex.lang chip_re label /\ entry = trim label)).
Proof.
  unfold category_entry. destruct categoryText as [|label]; [discriminate|].
  destruct (truthy (JStr label) && includes label (js "mentioned in")) eqn:E;
    [|discriminate].
  apply andb_true_iff in E. destruct E as [_ Einc].
  intros H. exists label. split; [reflexivity|]. split; [exact Einc|].
  destruct (chip_match label) as [[subject count]|] eqn:Em.
  - left. split; [apply chip_match_iff; eauto|].
    exists subject, count. inversion H; subst.
    split; [reflexivity|]. split; [reflexivity|].
    unfold chip_match in Em.
    destruct (chip_scan_spec label [] subject count eq_refl Em) as (Hne & Hdot & rest & _ & Ht).
    destruct (chip_tail_spec _ _ Ht) as (Hc & Hd & _).
    apply entry_shape; auto.
  - right. inversion H; subst. split; [|reflexivity].
    intros Hl. apply chip_match_iff in Hl. destruct Hl as (sb & ct & E).
    congruence.
Qed.

(** A label without the phrase adds nothing. *)
Lemma category_entry_without_phrase label :
  includes label (js "mentioned in") = false ->
  category_entry (JStr label) = None.
Proof.
  intros H. unfold category_entry. rewrite H, andb_false_r. reflexivity.
Qed.

Lemma categories_ok_blind o : blind_to reviewCategories (categories_ok o).
Proof. unfold blind_to, categories_ok. intros d d' E. rewrite E. auto. Qed.

Lemma scan_categories_ok o :
  keeps (on_record (categories_ok o)) (scan_categories o).
Proof.
  unfold scan_categories.
  apply keeps_bind.
  { apply keeps_on_data. intros d _. constructor. }
  intros _. apply keeps_await_bind. intros chips Hchips.
  apply keeps_for_of. intros btn Hbtn. unfold chip_step.
  apply keeps_await_bind. intros ariaLabel Ha.
  apply keeps_await_bind. intros text Ht.
  cbv zeta.
  destruct (category_entry (js_or ariaLabel text)) as [entry|] eqn:Ee;
    [|apply keeps_ret].
  apply keeps_on_data. intros d Hd. unfold categories_ok, push_category.
  cbn [reviewCategories set_reviewCategories].
  apply Forall_app. split; [exact Hd|]. constructor; [|constructor].
  destruct (category_entry_spec _ _ Ee) as (label & El & Hinc & Hshape).
  exists chips, btn, ariaLabel, text, label. auto 10.
Qed.

Lemma produced_categories_ok prog o d : produced prog o d -> categories_ok o d.
Proof.
  intros (u & c & c' & Hrun).
  apply (produced_record (categories_ok o) (categories_ok o) prog u o c d c');
    auto.
  - intros d1 d2 E. unfold harvest_view in E. inversion E.
    unfold categories_ok. congruence.
  - constructor.
  - unfold reviews_stage. apply keeps_try_catch; [|intros; apply keeps_ret].
    apply keeps_bind; [|intros _; apply keeps_bind; [|intros _]].
    + unfold harvest_reviews, expand_texts.
      assert (L : forall els, keeps (on_record (categories_ok o)) (review_loop els)).
      { induction els as [|el els IH]; cbn [review_loop].
        - apply keeps_ret.
        - keeps_fields (categories_ok_blind o). exact IH. }
      keeps_fields (categories_ok_blind o). apply L.
    + apply scan_categories_ok.
    + unfold scan_names. keeps_fields (categories_ok_blind o).
  - unfold email_stage, harvest_email, email_catch.
    keeps_fields (categories_ok_blind o).
Qed.

Example passing_page_run :
  exists d,
    scrape_listing Server (js "https://maps/place/2") passing_page ctx0
    = (Some d, ctx0) /\
    reviewCategories d = [js "often mentioned in passing"].
Proof. eexists. split; vm_compute; reflexivity. Qed.

(** C2, as stated, fails: the record produced from [passing_page] holds
    the entry [often mentioned in passing], which does not match
    [/^.+ \(\d+\)$/]. *)
Lemma categories_pattern_counterexample :
  exists d entry,
    produced Server passing_page d /\
    In entry (reviewCategories d) /\
    ~ Regex.lang entry_re entry.
Proof.
  destruct passing_page_run as (d & Hrun & Hcat).
  exists d, (js "often mentioned in passing"). split; [|split].
  - exists (js "https://maps/place/2"), ctx0, ctx0. exact Hrun.
  - rewrite Hcat. left. reflexivity.
  - intros H. apply RegexFacts.test_lang in H. vm_compute in H. discriminate.
Qed.

(** C2, amended.  Every entry of [reviewCategories] of a produced record
    comes from a chip of the page whose label contains [mentioned in]; a
    label without that phrase contributes nothing.  The entry is
    [<subject> (<count>)], matching [/^.+ \(\d+\)$/], when the label
    matches [/^(.+?),\s*mentioned in (\d+) reviews?$/], and is the trimmed
    label otherwise. *)
Theorem categories_from_phrase_chips prog o d entry :
  produced prog o d ->
  In entry (reviewCategories d) ->
  chip_origin o entry.
Proof.
  intros Hp Hin. pose proof (produced_categories_ok _ _ _ Hp) as H.
  unfold categories_ok in H. rewrite Forall_forall in H. auto.
Qed.

Lemma categories_from_phrase_chips_witness :
  chip_origin sample_page (js "quality (11)").
Proof.
  apply (categories_from_phrase_chips CLI sample_page sample_record).
  - exact sample_produced.
  - simpl. left. reflexivity.
Defined.

(* ================================================================== *)
(** * The searches return the matches of their patterns *)
(* ================================================================== *)

Ltac list_assoc :=
  repeat (rewrite <- app_assoc || rewrite <- app_comm_cons); reflexivity.

Lemma span_app_all p a t :
  forallb p a = true ->
  span p (a ++ t) = (a ++ fst (span p t), snd (span p t)).
Proof.
  intros Ha. induction a as [|c a IH]; simpl in *.
  - destruct (span p t); reflexivity.
  - apply andb_true_iff in Ha. destruct Ha as [Hc Ha].
    rewrite Hc, IH; auto.
Qed.

Lemma has_inner_dot_intro d1 d2 :
  d1 <> [] -> d2 <> [] -> has_inner_dot (d1 ++ 46%N :: d2) = true.
Proof.
  intros H1 H2. destruct d1 as [|a t1]; [congruence|]. simpl.
  change (46%N :: d2) with ([46%N] ++ d2).
  rewrite app_assoc, removelast_app by exact H2.
  rewrite <- app_assoc, existsb_app. simpl. apply orb_true_r.
Qed.

(** Where a prefix of the text matches the email pattern, the search
    returns that match, extended by the class members that follow it: the
    longest match at that place. *)
Lemma email_at_longest m rest :
  Regex.lang emailRegex m ->
  email_at (m ++ rest) = Some (m ++ fst (span is_email_char rest)).
Proof.
  intros H. unfold emailRegex in H.
  apply RegexInv.cat_inv in H. destruct H as (loc & s1 & -> & Hloc & H).
  apply RegexInv.cat_inv in H. destruct H as (at_ & s2 & -> & Hat & H).
  apply RegexInv.cat_inv in H. destruct H as (d1 & s3 & -> & Hd1 & H).
  apply RegexInv.cat_inv in H. destruct H as (dot & d2 & -> & Hdot & Hd2).
  apply RegexInv.plus_cls_inv in Hloc. destruct Hloc as [Hloc_ne Hloc].
  apply RegexInv.cls_inv in Hat. destruct Hat as (c & -> & Hc).
  apply N.eqb_eq in Hc. subst c.
  apply RegexInv.plus_cls_inv in Hd1. destruct Hd1 as [Hd1_ne Hd1].
  apply RegexInv.cls_inv in Hdot. destruct Hdot as (c & -> & Hc).
  apply N.eqb_eq in Hc. subst c.
  apply RegexInv.plus_cls_inv in Hd2. destruct Hd2 as [Hd2_ne Hd2].
  unfold email_at.
  replace ((loc ++ [64%N] ++ d1 ++ [46%N] ++ d2) ++ rest)
    with (loc ++ 64%N :: (d1 ++ 46%N :: d2) ++ rest)
    by (rewrite <- !app_assoc; reflexivity).
  rewrite span_app; [| exact Hloc | reflexivity].
  destruct loc as [|l0 loc]; [congruence|].
  rewrite N.eqb_refl.
  rewrite span_app_all
    by (rewrite forallb_app, Hd1; simpl; exact Hd2).
  destruct (span is_email_char rest) as [more rest'] eqn:Erest. cbn [fst snd].
  replace ((d1 ++ 46%N :: d2) ++ more) with (d1 ++ 46%N :: (d2 ++ more))
    by (rewrite <- app_assoc; reflexivity).
  rewrite has_inner_dot_intro; [| exact Hd1_ne | destruct d2; [congruence | discriminate]].
  f_equal. rewrite <- !app_assoc. reflexivity.
Qed.

Lemma space_not_lower c : is_space c = true -> is_lower c = false.
Proof.
  unfold is_space, is_lower, in_range. intros H.
  destruct (N.leb_spec 97 c) as [Ha|Ha]; [|reflexivity].
  destruct (N.leb_spec c 122) as [Hb|Hb]; [|reflexivity].
  exfalso.
  repeat (apply orb_true_iff in H; destruct H as [H | H]);
    try (apply N.eqb_eq in H; lia);
    apply andb_true_iff in H; destruct H as [Hlo Hhi];
    apply N.leb_le in Hlo; apply N.leb_le in Hhi; lia.
Qed.

Lemma upper_not_space c : is_upper c = true -> is_space c = false.
Proof.
  unfold is_space, is_upper, in_range. intros H.
  apply andb_true_iff in H. destruct H as [Hlo Hhi].
  apply N.leb_le in Hlo. apply N.leb_le in Hhi.
  repeat (apply orb_false_iff; split);
    try (apply N.eqb_neq; lia);
    apply andb_false_iff;
    [ destruct (N.leb_spec 9 c); destruct (N.leb_spec c 13); auto; lia
    | destruct (N.leb_spec 8192 c); destruct (N.leb_spec c 8202); auto; lia ].
Qed.

Lemma lower_is_word c : is_lower c = true -> is_word c = true.
Proof.
  intros H. unfold is_word. rewrite H. rewrite orb_true_r. reflexivity.
Qed.

Lemma name_word_spec s w rest :
  name_word s = Some (w, rest) ->
  s = w ++ rest /\ Regex.lang word_re w /\
  match rest with [] => True | c :: _ => is_lower c = false end.
Proof.
  unfold name_word. destruct s as [|c s1]; [discriminate|].
  destruct (is_upper c) eqn:Ec; [|discriminate].
  destruct (span is_lower s1) as [low s2] eqn:Es.
  destruct (Nat.leb_spec 2 (length low)) as [Hlen|Hlen]; [|discriminate].
  intros H. inversion H; subst w rest. clear H.
  apply span_spec in Es. destruct Es as (-> & Hlow & Hrest).
  split; [reflexivity|]. split; [|exact Hrest].
  destruct low as [|a [|b low]]; simpl in *; try lia.
  apply andb_true_iff in Hlow. destruct Hlow as [Ha Hlow].
  apply andb_true_iff in Hlow. destruct Hlow as [Hb Hlow].
  unfold word_re.
  apply (RegexInv.cat_intro _ _ _ [c] (a :: b :: low));
    [constructor; exact Ec | | reflexivity].
  apply (RegexInv.cat_intro _ _ _ [a] (b :: low));
    [constructor; exact Ha | | reflexivity].
  apply (RegexInv.cat_intro _ _ _ [b] low);
    [constructor; exact Hb | | reflexivity].
  apply RegexFacts.lang_star_all. exact Hlow.
Qed.

Lemma name_word_complete w rest :
  Regex.lang word_re w ->
  match rest with [] => True | c :: _ => is_lower c = false end ->
  name_word (w ++ rest) = Some (w, rest).
Proof.
  intros H Hrest. unfold word_re in H.
  apply RegexInv.cat_inv in H. destruct H as (u & s1 & -> & Hu & H).
  apply RegexInv.cat_inv in H. destruct H as (a & s2 & -> & Ha & H).
  apply RegexInv.cat_inv in H. destruct H as (b & low & -> & Hb & Hlow).
  apply RegexInv.cls_inv in Hu. destruct Hu as (c & -> & Hc).
  apply RegexInv.cls_inv in Ha. destruct Ha as (a0 & -> & Ha).
  apply RegexInv.cls_inv in Hb. destruct Hb as (b0 & -> & Hb).
  apply RegexInv.star_cls_inv in Hlow.
  unfold name_word. cbn [app]. rewrite Hc.
  change (a0 :: b0 :: low ++ rest) with ((a0 :: b0 :: low) ++ rest).
  rewrite (span_app is_lower (a0 :: b0 :: low) rest);
    [| simpl; rewrite Ha, Hb; exact Hlow | exact Hrest].
  reflexivity.
Qed.

(** A match of the name pattern starts at the head of the text exactly
    when a prefix of the text matches the pattern and is not followed by a
    word character; the search returns that prefix. *)
Lemma name_at_iff s m :
  name_at s = Some m <->
  exists rest,
    s = m ++ rest /\ Regex.lang namePattern m /\
    starts_with_word_char rest = false.
Proof.
  split.
  - unfold name_at. destruct (name_word s) as [[w1 s2]|] eqn:E1; [|discriminate].
    destruct (span is_space s2) as [sp s3] eqn:Esp.
    destruct sp as [|w0 sp]; [discriminate|].
    destruct (name_word s3) as [[w2 s5]|] eqn:E2; [|discriminate].
    destruct (starts_with_word_char s5) eqn:Eb; [discriminate|].
    intros H. inversion H; subst m. clear H.
    apply name_word_spec in E1. destruct E1 as (-> & Hw1 & _).
    apply name_word_spec in E2. destruct E2 as (-> & Hw2 & _).
    apply span_spec in Esp. destruct Esp as (-> & Hsp & _).
    exists s5. split; [list_assoc|].
    split; [|exact Eb].
    unfold namePattern.
    apply (RegexInv.cat_intro _ _ _ w1 ((w0 :: sp) ++ w2));
      [exact Hw1 | | reflexivity].
    apply (RegexInv.cat_intro _ _ _ (w0 :: sp) w2);
      [| exact Hw2 | reflexivity].
    apply RegexFacts.lang_plus_all; [discriminate | exact Hsp].
  - intros (rest & -> & H & Hb). unfold namePattern in H.
    apply RegexInv.cat_inv in H. destruct H as (w1 & s1 & -> & Hw1 & H).
    apply RegexInv.cat_inv in H. destruct H as (sp & w2 & -> & Hsp & Hw2).
    apply RegexInv.plus_cls_inv in Hsp. destruct Hsp as [Hsp_ne Hsp].
    destruct sp as [|w0 sp]; [congruence|].
    assert (Hu2 : exists c t, w2 = c :: t /\ is_upper c = true).
    { unfold word_re in Hw2. apply RegexInv.cat_inv in Hw2.
      destruct Hw2 as (u & t & -> & Hu & _).
      apply RegexInv.cls_inv in Hu. destruct Hu as (c & -> & Hc).
      exists c, t. auto. }
    destruct Hu2 as (c2 & t2 & Ew2 & Hc2).
    unfold name_at.
    replace ((w1 ++ (w0 :: sp) ++ w2) ++ rest)
      with (w1 ++ ((w0 :: sp) ++ w2 ++ rest))
      by list_assoc.
    rewrite name_word_complete;
      [| exact Hw1
       | simpl in Hsp; apply andb_true_iff in Hsp; destruct Hsp as [H0 _];
         cbn [app]; apply space_not_lower; exact H0].
    rewrite (span_app is_space (w0 :: sp) (w2 ++ rest));
      [| exact Hsp | rewrite Ew2; cbn [app]; apply upper_not_space; exact Hc2].
    rewrite name_word_complete; [| exact Hw2 |].
    + rewrite Hb. f_equal. list_assoc.
    + destruct rest as [|c rest]; [exact I|]. simpl in Hb.
      destruct (is_lower c) eqn:El; [|reflexivity].
      rewrite (lower_is_word _ El) in Hb. discriminate.
Qed.

(* ================================================================== *)
(** * Mentioned names *)
(* ================================================================== *)

Lemma first_seen_In l x : In x (first_seen l) -> In x l.
Proof.
  induction l as [|y l IH]; simpl; auto.
  intros [E | H]; auto. apply filter_In in H. right. apply IH. tauto.
Qed.

Lemma first_seen_NoDup l : NoDup (first_seen l).
Proof.
  induction l as [|x l IH]; simpl; constructor.
  - intros H. apply filter_In in H. destruct H as [_ H].
    apply negb_true_iff in H.
    assert (E : str_eqb x x = true) by (apply str_eqb_eq; reflexivity).
    congruence.
  - apply NoDup_filter. exact IH.
Qed.

Lemma filter_filter {A} (f g : A -> bool) l :
  filter f (filter g l) = filter (fun x => g x && f x) l.
Proof.
  induction l as [|x l IH]; simpl; auto.
  destruct (g x); simpl; [destruct (f x)|]; rewrite ?IH; auto.
Qed.

(** What the inner loop does to the names found so far. *)
Lemma fold_accept_name cands : forall names,
  fold_left accept_name cands names
  = names ++ filter (fun y => negb (arr_includes names y))
                    (first_seen (filter acceptable (map trim cands))).
Proof.
  induction cands as [|c cands IH]; intros names; simpl.
  - rewrite app_nil_r. reflexivity.
  - rewrite IH.
    assert (Hstep : accept_name names c
                    = if acceptable (trim c) && negb (arr_includes names (trim c))
                      then names ++ [trim c] else names) by reflexivity.
    rewrite Hstep. clear Hstep.
    destruct (acceptable (trim c)) eqn:Eacc; simpl; [|reflexivity].
    destruct (arr_includes names (trim c)) eqn:Ein; simpl.
    + f_equal. rewrite filter_filter. apply filter_ext_in. intros y _.
      destruct (str_eqb y (trim c)) eqn:Ey; simpl; [|reflexivity].
      apply str_eqb_eq in Ey. subst y. rewrite Ein. reflexivity.
    + rewrite <- app_assoc. simpl. f_equal. f_equal.
      rewrite filter_filter. apply filter_ext_in. intros y _.
      unfold arr_includes. rewrite existsb_app. simpl.
      rewrite orb_false_r, negb_orb. apply andb_comm.
Qed.

Lemma fold_names_of_review rs : forall names,
  fold_left names_of_review rs names
  = fold_left accept_name (flat_map name_matches rs) names.
Proof.
  induction rs as [|r rs IH]; intros names; simpl; auto.
  rewrite fold_left_app. apply IH.
Qed.

Lemma mine_names_first_seen rs :
  mine_names rs = first_seen (filter acceptable (name_candidates rs)).
Proof.
  unfold mine_names, name_candidates.
  rewrite fold_names_of_review, fold_accept_name.
  cbn [app]. generalize (first_seen (filter acceptable (map trim (flat_map name_matches rs)))).
  intros l. induction l as [|x l IH]; [reflexivity|].
  cbn [filter arr_includes existsb negb]. f_equal. exact IH.
Qed.

Lemma no_names_blind : blind_to mentionedNames no_names.
Proof. unfold blind_to, no_names. congruence. Qed.

Lemma names_ok_blind :
  blind_to (fun d => (reviews d, mentionedNames d)) names_ok.
Proof.
  unfold blind_to, names_ok. intros d d' E. inversion E. congruence.
Qed.

Lemma review_loop_keeps_blind {T} (f : ListingRecord -> T) I :
  blind_to f I ->
  (forall r d, f (push_review r d) = f d) ->
  forall els, keeps (on_record I) (review_loop els).
Proof.
  intros Hblind Hpush. induction els as [|el els IH]; cbn [review_loop].
  - apply keeps_ret.
  - repeat first
      [ exact IH
      | keeps_step
      | apply keeps_on_data; intros ? ?; eapply Hblind; [| eassumption];
        symmetry; apply Hpush ].
Qed.

Lemma reviews_stage_names_ok o :
  triple (on_record no_names) (reviews_stage o)
         (fun _ => on_record names_ok) (on_record names_ok).
Proof.
  assert (HE : forall s, on_record no_names s -> on_record names_ok s)
    by (intros s Hs; left; exact Hs).
  unfold reviews_stage.
  eapply triple_try_catch with (R := on_record names_ok);
    [| intros e; apply keeps_ret].
  apply triple_after; [| exact HE | intros _].
  { unfold harvest_reviews, expand_texts.
    keeps_fields no_names_blind.
    apply (review_loop_keeps_blind mentionedNames); auto using no_names_blind. }
  apply triple_after; [| exact HE | intros _].
  { unfold scan_categories, chip_step. keeps_fields no_names_blind. }
  intros s _. right. reflexivity.
Qed.

Lemma produced_names_ok prog o d : produced prog o d -> names_ok d.
Proof.
  intros (u & c & c' & Hrun).
  apply (produced_record no_names names_ok prog u o c d c'); auto.
  - intros d1 d2 E. unfold harvest_view in E. inversion E.
    unfold no_names. congruence.
  - reflexivity.
  - apply reviews_stage_names_ok.
  - unfold email_stage, harvest_email, email_catch.
    keeps_fields names_ok_blind.
Qed.

(** C7.  In every produced record [mentionedNames] has no duplicates,
    holds no string of the exclusion set, and lists the accepted names in
    the order in which they are first seen over the texts of the retained
    reviews (it is empty when the reviews block was left by an
    exception). *)
Theorem mentioned_names_distinct_first_seen prog o d :
  produced prog o d ->
  NoDup (mentionedNames d) /\
  (forall n, In n (mentionedNames d) -> ~ In n excludeWords) /\
  (mentionedNames d = [] \/
   mentionedNames d
   = first_seen (filter acceptable (name_candidates (reviews d)))).
Proof.
  intros Hp. destruct (produced_names_ok _ _ _ Hp) as [E | E].
  - rewrite E. split; [constructor|]. split; [intros n []|]. left. reflexivity.
  - rewrite E, mine_names_first_seen. split; [apply first_seen_NoDup|].
    split; [|right; reflexivity].
    intros n Hn. apply first_seen_In, filter_In in Hn. destruct Hn as [_ Hn].
    unfold acceptable in Hn. apply andb_true_iff in Hn. destruct Hn as [Hn _].
    apply negb_true_iff, arr_includes_false in Hn. exact Hn.
Qed.

Lemma mentioned_names_distinct_first_seen_witness :
  NoDup (mentionedNames sample_record) /\
  (forall n, In n (mentionedNames sample_record) -> ~ In n excludeWords) /\
  (mentionedNames sample_record = [] \/
   mentionedNames sample_record
   = first_seen (filter acceptable (name_candidates (reviews sample_record)))).
Proof.
  apply (mentioned_names_distinct_first_seen CLI sample_page sample_record).
  exact sample_produced.
Defined.

Example sample_candidates :
  name_candidates (reviews sample_record)
  = [js "John Doe"; js "John Doe"; js "Thank You"; js "New York"].
Proof. vm_compute. reflexivity. Qed.

(* ================================================================== *)
(** * Emails *)
(* ================================================================== *)

Lemma has_inner_dot_split dom :
  has_inner_dot dom = true ->
  exists d1 d2, dom = d1 ++ 46%N :: d2 /\ d1 <> [] /\ d2 <> [].
Proof.
  destruct dom as [|a t]; simpl; [discriminate|].
  intros H. apply existsb_exists in H. destruct H as (x & Hx & Ex).
  apply N.eqb_eq in Ex. subst x.
  destruct t as [|b t'] using rev_ind; [contradiction|].
  rewrite removelast_last in Hx.
  apply in_split in Hx. destruct Hx as (l1 & l2 & ->).
  exists (a :: l1), (l2 ++ [b]). split; [|split].
  - simpl. rewrite <- app_assoc. reflexivity.
  - discriminate.
  - destruct l2; discriminate.
Qed.

(** What [email_at] returns is matched by the whole pattern. *)
Lemma email_at_shape s m : email_at s = Some m -> Regex.lang emailRegex m.
Proof.
  unfold email_at. destruct (span is_email_char s) as [loc s1] eqn:E1.
  destruct loc as [|l0 loc]; [discriminate|].
  destruct s1 as [|c s2]; [discriminate|].
  destruct (N.eqb_spec c 64); [|discriminate]. subst c.
  destruct (span is_email_char s2) as [dom s3] eqn:E2.
  destruct (has_inner_dot dom) eqn:Edot; [|discriminate].
  intros H. inversion H; subst m. clear H.
  apply span_spec in E1. destruct E1 as (_ & Hloc & _).
  apply span_spec in E2. destruct E2 as (_ & Hdom & _).
  destruct (has_inner_dot_split _ Edot) as (d1 & d2 & -> & Hd1 & Hd2).
  rewrite forallb_app in Hdom. apply andb_true_iff in Hdom.
  destruct Hdom as [H1 H2]. simpl in H2.
  unfold emailRegex.
  eapply RegexInv.cat_intro with (s1 := l0 :: loc);
    [apply RegexFacts.lang_plus_all; [discriminate | exact Hloc] | | reflexivity].
  eapply RegexInv.cat_intro with (s1 := [64%N]);
    [constructor; reflexivity | | reflexivity].
  eapply RegexInv.cat_intro with (s1 := d1);
    [apply RegexFacts.lang_plus_all; assumption | | reflexivity].
  eapply RegexInv.cat_intro with (s1 := [46%N]);
    [constructor; reflexivity | | reflexivity].
  apply RegexFacts.lang_plus_all; assumption.
Qed.

Lemma emails_from_shape s : forall skip m,
  In m (emails_from skip s) -> Regex.lang emailRegex m.
Proof.
  induction s as [|c s IH]; intros skip m; simpl; [contradiction|].
  destruct skip as [|k]; [|apply IH].
  destruct (email_at (c :: s)) as [m0|] eqn:E; [|apply IH].
  intros [<- | H]; [exact (email_at_shape _ _ E) | exact (IH _ _ H)].
Qed.

Lemma set_add_NoDup seen x : NoDup seen -> NoDup (set_add seen x).
Proof.
  intros H. unfold set_add. destruct (arr_includes seen x) eqn:E; auto.
  apply arr_includes_false in E.
  apply NoDup_app; auto.
  - constructor; [intros [] | constructor].
  - intros y Hy [<- | []]. contradiction.
Qed.

Lemma set_add_In seen x y : In y (set_add seen x) -> In y seen \/ y = x.
Proof.
  unfold set_add. destruct (arr_includes seen x); auto.
  intros H. apply in_app_or in H. destruct H as [H | [H | []]]; auto.
Qed.

Lemma new_Set_spec l : forall seen,
  NoDup seen ->
  NoDup (fold_left set_add l seen) /\
  forall y, In y (fold_left set_add l seen) -> In y seen \/ In y l.
Proof.
  induction l as [|x l IH]; intros seen Hseen; simpl.
  - auto.
  - destruct (IH (set_add seen x) (set_add_NoDup _ _ Hseen)) as [Hnd Hin].
    split; [exact Hnd|]. intros y Hy.
    destruct (Hin y Hy) as [H | H]; auto.
    destruct (set_add_In _ _ _ H); auto.
Qed.

Lemma not_includes_lower s sub :
  no_upper sub = true ->
  includes (toLowerCase s) sub = false -> includes s sub = false.
Proof.
  intros Hsub H. destruct (includes s sub) eqn:E; auto.
  rewrite (includes_toLowerCase _ _ Hsub E) in H. discriminate.
Qed.

Lemma not_endsWith_lower s suf :
  no_upper suf = true ->
  endsWith (toLowerCase s) suf = false -> endsWith s suf = false.
Proof.
  intros Hsuf H. destruct (endsWith s suf) eqn:E; auto.
  rewrite (endsWith_toLowerCase _ _ Hsuf E) in H. discriminate.
Qed.

Lemma keep_email_clean token : keep_email token = true -> clean_token token.
Proof.
  unfold keep_email. cbv zeta. intros H.
  repeat (apply andb_true_iff in H; destruct H as [H ?]).
  repeat match goal with
         | K : negb _ = true |- _ => apply negb_true_iff in K
         end.
  unfold has_junk_extension in H.
  split; [|split].
  - intros ext Hext.
    assert (Hlow : endsWith (toLowerCase token) (46%N :: ext) = false).
    { destruct (endsWith (toLowerCase token) (46%N :: ext)) eqn:E; auto.
      rewrite <- H. symmetry. apply existsb_exists. eauto. }
    split; [exact Hlow|]. apply not_endsWith_lower; auto.
    simpl in Hext. repeat (destruct Hext as [<- | Hext]; [reflexivity|]).
    contradiction.
  - intros sub Hsub. simpl in Hsub.
    repeat (destruct Hsub as [<- | Hsub];
            [split; [assumption | apply not_includes_lower; [reflexivity | assumption]]|]).
    contradiction.
  - intros dom Hdom. simpl in Hdom.
    repeat (destruct Hdom as [<- | Hdom];
            [split; [assumption | apply not_includes_lower; [reflexivity | assumption]]|]).
    contradiction.
Qed.

Lemma email_ok_blind : blind_to email email_ok.
Proof. unfold blind_to, email_ok. intros d d' E. rewrite E. auto. Qed.

Lemma uniqueEmails_ok content :
  NoDup (uniqueEmails (match_emailRegex content)) /\
  forall token, In token (uniqueEmails (match_emailRegex content)) ->
    Regex.lang emailRegex token /\ clean_token token.
Proof.
  unfold uniqueEmails, new_Set.
  destruct (new_Set_spec (match_emailRegex content) [] (NoDup_nil _))
    as [Hnd Hin].
  split; [apply NoDup_filter; exact Hnd|].
  intros token Ht. apply filter_In in Ht. destruct Ht as [Ht Hkeep].
  split; [|apply keep_email_clean; exact Hkeep].
  destruct (Hin token Ht) as [[] | Hm].
  exact (emails_from_shape _ _ _ Hm).
Qed.

Lemma email_stage_ok prog o : keeps (on_record email_ok) (email_stage prog o).
Proof.
  unfold email_stage, harvest_email, email_catch.
  repeat first
    [ keeps_step
    | apply newPage_keeps
    | apply close_keeps ].
  apply keeps_on_data. intros d _.
  match goal with
  | E : website_content o = Ok ?content, L : match_emailRegex ?content = _ |- _ =>
      rewrite <- L; exists (uniqueEmails (match_emailRegex content));
      split; [reflexivity | apply uniqueEmails_ok]
  end.
Qed.

Lemma produced_email_ok prog o d : produced prog o d -> email_ok d.
Proof.
  intros (u & c & c' & Hrun).
  apply (produced_record email_ok email_ok prog u o c d c'); auto.
  - intros d1 d2 E. unfold harvest_view in E. inversion E.
    apply email_ok_blind. assumption.
  - exists []. split; [reflexivity|]. split; [constructor | intros ? []].
  - change (keeps (on_record email_ok) (reviews_stage o)).
    unfold reviews_stage, harvest_reviews, expand_texts, scan_categories,
      chip_step, scan_names.
    keeps_fields email_ok_blind.
    apply (review_loop_keeps_blind email); auto using email_ok_blind.
  - apply email_stage_ok.
Qed.

(** C8.  The non-empty [email] field of a produced record is the join,
    with a comma and a space, of one or more distinct tokens, each matched
    as a whole by the email pattern; no token ends in one of the file
    extensions, contains one of the tooling substrings or contains one of
    the placeholder domains, in whatever letter case. *)
Theorem email_is_clean_token_list prog o d :
  produced prog o d ->
  email d <> [] ->
  exists tokens,
    tokens <> [] /\
    email d = join (js ", ") tokens /\
    NoDup tokens /\
    forall token, In token tokens ->
      Regex.lang emailRegex token /\ clean_token token.
Proof.
  intros Hp Hne. destruct (produced_email_ok _ _ _ Hp) as (tokens & E & H).
  exists tokens. split; [|split; [exact E | exact H]].
  intros ->. apply Hne. exact E.
Qed.

Lemma email_is_clean_token_list_witness :
  exists tokens,
    tokens <> [] /\
    email sample_record = join (js ", ") tokens /\
    NoDup tokens /\
    forall token, In token tokens ->
      Regex.lang emailRegex token /\ clean_token token.
Proof.
  apply (email_is_clean_token_list CLI sample_page sample_record).
  - exact sample_produced.
  - discriminate.
Defined.

(* ================================================================== *)
(** * The scroll loop *)
(* ================================================================== *)

(** The loop leaves at once when enough results are rendered. *)
Lemma scroll_loop_enough fuel feed n :
  MAX_RESULTS <= feed n -> scroll_loop (S fuel) feed n = Some n.
Proof.
  intros H. cbn [scroll_loop].
  destruct (Nat.leb_spec MAX_RESULTS (feed n)); [reflexivity | lia].
Qed.

(** It leaves after one scroll when nothing is rendered. *)
Lemma scroll_loop_empty fuel feed n :
  feed n = 0 -> scroll_loop (S fuel) feed n = Some (S n).
Proof. intros H. cbn [scroll_loop]. rewrite H. reflexivity. Qed.

(** It never leaves while some, but fewer than [MAX_RESULTS], results are
    rendered: no iteration compares the count with the one before. *)
Lemma scroll_loop_short_feed feed :
  (forall n, 0 < feed n < MAX_RESULTS) ->
  forall fuel n, scroll_loop fuel feed n = None.
Proof.
  intros H. induction fuel as [|fuel IH]; intros n; [reflexivity|].
  cbn [scroll_loop]. destruct (H n) as [Hpos Hlt].
  destruct (Nat.leb_spec MAX_RESULTS (feed n)); [lia|].
  destruct (Nat.ltb_spec 0 (feed n)); [|lia].
  destruct (Nat.ltb_spec (feed n) MAX_RESULTS); [|lia].
  apply IH.
Qed.

(** C1, on the code: with a feed that stays at three results the scroll
    loop has not left after any number of iterations, so no run returns. *)
Theorem stalled_feed_run_never_returns prog fuel hrefs obs :
  runScraper prog fuel (mkRunObs (fun _ => 3) hrefs obs) = None.
Proof.
  unfold runScraper. cbn [feed].
  rewrite scroll_loop_short_feed; [reflexivity|].
  intros n. unfold MAX_RESULTS. lia.
Qed.

(* ================================================================== *)
(** * The collected URLs *)
(* ================================================================== *)

(** [urls] holds no URL twice and never more than [MAX_RESULTS]. *)
Lemma collect_urls_spec hrefs : forall urls,
  NoDup urls -> length urls < MAX_RESULTS ->
  NoDup (collect_urls hrefs urls) /\
  length (collect_urls hrefs urls) <= MAX_RESULTS.
Proof.
  induction hrefs as [|href hrefs IH]; intros urls Hnd Hlen;
    cbn [collect_urls].
  - split; [exact Hnd | lia].
  - set (urls' := match href with
                  | JNull => urls
                  | JStr h =>
                      if truthy href && negb (arr_includes urls h)
                      then urls ++ [h] else urls
                  end).
    assert (H' : NoDup urls' /\ length urls' <= MAX_RESULTS).
    { subst urls'. destruct href as [|h]; [split; [exact Hnd | lia]|].
      destruct (truthy (JStr h) && negb (arr_includes urls h)) eqn:E;
        [|split; [exact Hnd | lia]].
      apply andb_true_iff in E. destruct E as [_ E].
      apply negb_true_iff, arr_includes_false in E. split.
      - apply NoDup_app; auto.
        + constructor; [intros [] | constructor].
        + intros y Hy [<- | []]. contradiction.
      - rewrite length_app. simpl. lia. }
    destruct H' as [Hnd' Hlen'].
    destruct (Nat.leb_spec MAX_RESULTS (length urls')).
    + split; assumption.
    + apply IH; assumption.
Qed.

(* ================================================================== *)
(** * The secondary page and failures of the email harvester *)
(* ================================================================== *)

(** Without a website the email block is skipped: no page is opened. *)
Lemma email_stage_skipped prog o s :
  truthy (website (data s)) = false -> email_stage prog o s = (Ok tt, s).
Proof.
  intros H. unfold email_stage, bind, gets. rewrite H. reflexivity.
Qed.

(** When its three calls answer, the harvester closes the page it
    opened. *)
Lemma harvest_email_closes o s content :
  new_page o = Ok tt -> goto_website o = Ok tt ->
  website_content o = Ok content ->
  ~ In (next_page (context s)) (open_pages (context s)) ->
  fst (harvest_email o s) = Ok tt /\
  open_pages (context (snd (harvest_email o s))) = open_pages (context s).
Proof.
  intros H1 H2 H3 Hfresh.
  assert (Hclose :
    filter (fun q => negb (q =? next_page (context s)))
           (next_page (context s) :: open_pages (context s))
    = open_pages (context s)).
  { cbn [filter]. rewrite Nat.eqb_refl. cbn [negb].
    apply forallb_filter_id. apply forallb_forall. intros q Hq.
    apply negb_true_iff, Nat.eqb_neq. intros ->. contradiction. }
  unfold harvest_email, bind, newPage, await, close, modify, on_data, ret.
  rewrite H1, H2, H3.
  destruct (match_emailRegex content);
    cbn [fst snd context data next_page open_pages];
    (split; [reflexivity | exact Hclose]).
Qed.

(** In the server a failure of the harvester is swallowed: the stage
    completes and [email] is what it was. *)
Lemma server_email_failure_swallowed o s e :
  goto_website o = Throw e ->
  fst (email_stage Server o s) = Ok tt /\
  email (data (snd (email_stage Server o s))) = email (data s).
Proof.
  intros H. unfold email_stage, bind, gets.
  destruct (truthy (website (data s))); [|auto].
  unfold try_catch, harvest_email, bind, newPage, await, email_catch, ret.
  rewrite H. destruct (new_page o); auto.
Qed.

(** C3, on the code: when the navigation of the secondary page times out,
    the page is still open after the listing pass, in both programs. *)
Theorem secondary_page_left_open_on_timeout :
  open_pages (snd (scrape_listing CLI (js "https://maps/place/3") timeout_page ctx0))
  = [0] /\
  open_pages (snd (scrape_listing Server (js "https://maps/place/3") timeout_page ctx0))
  = [0].
Proof. split; vm_compute; reflexivity. Qed.

(** C4, on the code: the same timeout makes scraper.js drop the listing,
    while the server keeps it with an empty [email]. *)
Theorem cli_drops_listing_on_harvester_failure :
  fst (scrape_listing CLI (js "https://maps/place/3") timeout_page ctx0) = None /\
  exists d,
    fst (scrape_listing Server (js "https://maps/place/3") timeout_page ctx0) = Some d /\
    email d = [].
Proof.
  split; [vm_compute; reflexivity|].
  eexists. split; vm_compute; reflexivity.
Qed.

(* ================================================================== *)
(** * Attributes, and the stages that never look at them *)
(* ================================================================== *)

Lemma put_attributes_same s : put_attributes (attributes (data s)) s = s.
Proof. destruct s as [[] c]. reflexivity. Qed.

Lemma commutes_keeps_attributes {A} (m : M St A) s :
  commutes m -> attributes (data (snd (m s))) = attributes (data s).
Proof.
  intros H. specialize (H (attributes (data s)) s).
  rewrite put_attributes_same in H.
  rewrite H at 1. reflexivity.
Qed.

Section Commutes.

Lemma commutes_ret {A} (a : A) : commutes (ret a).
Proof. intros x s. reflexivity. Qed.

Lemma commutes_throw {A} e : commutes (@throw St A e).
Proof. intros x s. reflexivity. Qed.

Lemma commutes_await {A} (o : outcome A) : commutes (await o).
Proof. intros x s. reflexivity. Qed.

Lemma commutes_bind {A B} (m : M St A) (k : A -> M St B) :
  commutes m -> (forall a, commutes (k a)) -> commutes (bind m k).
Proof.
  intros Hm Hk x s. unfold bind. rewrite Hm.
  destruct (m s) as [[a|e] s']; cbn [fst snd]; [apply Hk | reflexivity].
Qed.

Lemma commutes_try_catch {A} (m : M St A) h :
  commutes m -> (forall e, commutes (h e)) -> commutes (try_catch m h).
Proof.
  intros Hm Hh x s. unfold try_catch. rewrite Hm.
  destruct (m s) as [[a|e] s']; cbn [fst snd]; [reflexivity | apply Hh].
Qed.

Lemma commutes_when c (m : M St unit) : commutes m -> commutes (when c m).
Proof. intros H. destruct c; [exact H | apply commutes_ret]. Qed.

Lemma commutes_for_of {A} (l : list A) (body : A -> M St unit) :
  (forall a, commutes (body a)) -> commutes (for_of l body).
Proof.
  intros H. induction l as [|a l IH]; cbn [for_of].
  - apply commutes_ret.
  - apply commutes_bind; [apply H | intros _; exact IH].
Qed.

Lemma commutes_on_data f :
  (forall x d, f (set_attributes x d) = set_attributes x (f d)) ->
  commutes (on_data f).
Proof.
  intros H x s. unfold on_data, modify, put_attributes. cbn [data context fst snd].
  rewrite H. reflexivity.
Qed.

(** Reading [data] and going on in a way that does not depend on
    [data.attributes]. *)
Lemma commutes_gets_data {B} (k : ListingRecord -> M St B) :
  (forall x d, k (set_attributes x d) = k d) ->
  (forall d, commutes (k d)) ->
  commutes (bind (gets data) k).
Proof.
  intros Hk Hc x s. unfold bind, gets. cbn [data put_attributes].
  rewrite Hk. apply Hc.
Qed.

Lemma commutes_non_null v : commutes (non_null v).
Proof. destruct v; [apply commutes_throw | apply commutes_ret]. Qed.

Lemma commutes_newPage o : commutes (newPage o).
Proof. intros x s. unfold newPage. destruct (new_page o); reflexivity. Qed.

Lemma commutes_close p : commutes (close p).
Proof. intros x s. reflexivity. Qed.

End Commutes.

Ltac commutes_step :=
  match goal with
  | |- commutes (bind (gets data) _) =>
      apply commutes_gets_data; [intros ? ?; reflexivity | intros ?]
  | |- commutes (bind _ _) => apply commutes_bind; [| intros ?]
  | |- commutes (ret _) => apply commutes_ret
  | |- commutes (throw _) => apply commutes_throw
  | |- commutes (await _) => apply commutes_await
  | |- commutes (non_null _) => apply commutes_non_null
  | |- commutes (newPage _) => apply commutes_newPage
  | |- commutes (close _) => apply commutes_close
  | |- commutes (try_catch _ _) => apply commutes_try_catch; [| intros ?]
  | |- commutes (when _ _) => apply commutes_when
  | |- commutes (for_of _ _) => apply commutes_for_of; intros ?
  | |- commutes (on_data _) => apply commutes_on_data; intros ? ?; reflexivity
  | |- commutes (if ?c then _ else _) => destruct c
  | |- commutes (match ?x with Some _ => _ | None => _ end) => destruct x
  | |- commutes (match ?x with CLI => _ | Server => _ end) => destruct x
  | |- commutes (match ?x with nil => _ | cons _ _ => _ end) => destruct x eqn:?
  end.

Lemma pre_about_commutes o : commutes (pre_about o).
Proof.
  unfold pre_about, name_stage, buttons_stage, button_step, website_stage,
    rating_stage.
  repeat commutes_step.
Qed.

Lemma review_loop_commutes els : commutes (review_loop els).
Proof.
  induction els as [|el els IH]; cbn [review_loop].
  - apply commutes_ret.
  - repeat first [exact IH | commutes_step].
Qed.

Lemma reviews_stage_commutes o : commutes (reviews_stage o).
Proof.
  unfold reviews_stage, harvest_reviews, expand_texts, scan_categories,
    chip_step, scan_names.
  repeat first [apply review_loop_commutes | commutes_step].
Qed.

Lemma email_stage_commutes prog o : commutes (email_stage prog o).
Proof.
  unfold email_stage, harvest_email, email_catch.
  repeat commutes_step.
Qed.

Lemma harvest_stages_commutes prog o : commutes (harvest_stages prog o).
Proof.
  unfold harvest_stages. apply commutes_bind;
    [apply reviews_stage_commutes | intros _; apply email_stage_commutes].
Qed.

(** The About block never throws and touches nothing but
    [data.attributes]. *)
Lemma about_stage_effect o s :
  about_stage o s
  = (Ok tt, match about_assigns o with
            | Some tags => put_attributes (Some tags) s
            | None => s
            end).
Proof.
  unfold about_stage, about_assigns, try_catch, bind, await, on_data, modify, ret.
  destruct (about_tab_count o) as [n|e]; [|reflexivity].
  destruct (positive n); [|reflexivity].
  destruct (about_tab_click o) as [[]|e]; [|reflexivity].
  destruct (about_content o) as [pageContent|e]; reflexivity.
Qed.

Lemma listing_body_cli o s :
  listing_body CLI o s
  = bind (pre_about o)
         (fun _ => bind (about_stage o) (fun _ => harvest_stages CLI o)) s.
Proof.
  unfold listing_body, pre_about, harvest_stages, bind.
  destruct (await (goto_listing o) s) as [[a|e] s1]; auto.
  destruct (name_stage o s1) as [[a1|e] s2]; auto.
  destruct (buttons_stage o s2) as [[a2|e] s3]; auto.
  destruct (website_stage o s3) as [[a3|e] s4]; auto.
Qed.

Lemma listing_body_server o s :
  listing_body Server o s
  = bind (pre_about o) (fun _ => harvest_stages Server o) s.
Proof.
  unfold listing_body, pre_about, harvest_stages, bind.
  destruct (await (goto_listing o) s) as [[a|e] s1]; auto.
  destruct (name_stage o s1) as [[a1|e] s2]; auto.
  destruct (buttons_stage o s2) as [[a2|e] s3]; auto.
  destruct (website_stage o s3) as [[a3|e] s4]; auto.
Qed.

(** The [attributes] key of a record produced by scraper.js is what the
    About block assigned, and is missing when it assigned nothing. *)
Lemma cli_attributes o d : produced CLI o d -> attributes d = about_assigns o.
Proof.
  intros (u & c & c' & Hrun). unfold scrape_listing in Hrun.
  rewrite listing_body_cli in Hrun. unfold bind in Hrun.
  pose proof (commutes_keeps_attributes (pre_about o) (mkSt (new_data u) c)
                (pre_about_commutes o)) as Hpre.
  destruct (pre_about o (mkSt (new_data u) c)) as [[[]|e] s1];
    [|discriminate].
  rewrite about_stage_effect in Hrun.
  set (s2 := match about_assigns o with
             | Some tags => put_attributes (Some tags) s1
             | None => s1
             end) in Hrun.
  pose proof (commutes_keeps_attributes (harvest_stages CLI o) s2
                (harvest_stages_commutes CLI o)) as Hpost.
  destruct (harvest_stages CLI o s2) as [[[]|e] s3]; [|discriminate].
  inversion Hrun; subst d c'. cbn [snd] in *.
  rewrite Hpost. subst s2. destruct (about_assigns o); [reflexivity|].
  exact Hpre.
Qed.

(** The server never sets the key. *)
Lemma server_attributes o d : produced Server o d -> attributes d = None.
Proof.
  intros (u & c & c' & Hrun). unfold scrape_listing in Hrun.
  rewrite listing_body_server in Hrun. unfold bind in Hrun.
  pose proof (commutes_keeps_attributes (pre_about o) (mkSt (new_data u) c)
                (pre_about_commutes o)) as Hpre.
  destruct (pre_about o (mkSt (new_data u) c)) as [[[]|e] s1];
    [|discriminate].
  pose proof (commutes_keeps_attributes (harvest_stages Server o) s1
                (harvest_stages_commutes Server o)) as Hpost.
  destruct (harvest_stages Server o s1) as [[[]|e] s3]; [|discriminate].
  inversion Hrun; subst d c'. cbn [snd] in *.
  rewrite Hpost, Hpre. reflexivity.
Qed.

Lemma push_if_keeps c x l y : In y l -> In y (push_if c x l).
Proof.
  intros H. unfold push_if. destruct c; [apply in_or_app; left|]; exact H.
Qed.

Lemma scan_attributes_women pageContent :
  includes pageContent (js "Identified as women-owned") = true ->
  In (js "Women-owned") (scan_attributes pageContent).
Proof.
  intros H. unfold scan_attributes. cbv zeta. rewrite H.
  do 3 apply push_if_keeps. cbn [push_if app]. left. reflexivity.
Qed.

(** C5.  For a record produced by scraper.js: when the About tab is there
    and the page content read after opening it contains
    [Identified as women-owned], [attributes] includes [Women-owned]; when
    there is no About tab, the About block completes without an exception
    and [attributes] holds no tag (the key is not set). *)
Theorem women_owned_attribute o d :
  produced CLI o d ->
  (forall n pageContent,
     about_tab_count o = Ok (S n) ->
     about_tab_click o = Ok tt ->
     about_content o = Ok pageContent ->
     includes pageContent (js "Identified as women-owned") = true ->
     In (js "Women-owned") (tags d)) /\
  (about_tab_count o = Ok 0 ->
     tags d = [] /\ attributes d = None /\
     forall s, about_stage o s = (Ok tt, s)).
Proof.
  intros Hp. pose proof (cli_attributes o d Hp) as Hattr. split.
  - intros n pageContent Hn Hclick Hcontent Hinc.
    unfold tags. rewrite Hattr. unfold about_assigns.
    rewrite Hn, Hclick, Hcontent. cbn [positive Nat.ltb Nat.leb].
    apply scan_attributes_women. exact Hinc.
  - intros H0.
    assert (Hnone : about_assigns o = None)
      by (unfold about_assigns; rewrite H0; reflexivity).
    unfold tags. rewrite Hattr, Hnone. repeat split.
    intros s. rewrite about_stage_effect, Hnone. reflexivity.
Qed.

Lemma passing_produced : produced CLI passing_page passing_record.
Proof.
  exists (js "https://maps/place/2"), ctx0, ctx0. vm_compute. reflexivity.
Qed.

Lemma women_owned_attribute_witness :
  In (js "Women-owned") (tags sample_record) /\
  (tags passing_record = [] /\ attributes passing_record = None /\
   forall s, about_stage passing_page s = (Ok tt, s)).
Proof.
  split.
  - apply (proj1 (women_owned_attribute sample_page sample_record sample_produced)
                 0 (js "<div>Identified as women-owned</div>"));
      reflexivity.
  - apply (proj2 (women_owned_attribute passing_page passing_record
                    passing_produced)).
    reflexivity.
Defined.

(* ================================================================== *)
(** * The two programs compared *)
(* ================================================================== *)

(** When the page did open and a later call of the harvester throws, the
    page is still open after the email block, whatever the program. *)
Lemma harvest_email_leaks prog o s :
  new_page o = Ok tt ->
  harvest_throws o = true ->
  open_pages (context (snd (try_catch (harvest_email o) (email_catch prog) s)))
  = next_page (context s) :: open_pages (context s).
Proof.
  intros Hnew Hthrow. unfold harvest_throws in Hthrow. rewrite Hnew in Hthrow.
  unfold try_catch, harvest_email, bind, newPage, await. rewrite Hnew.
  destruct (goto_website o) as [[]|e].
  - destruct (website_content o) as [content|e]; [discriminate|].
    destruct prog; reflexivity.
  - destruct prog; reflexivity.
Qed.

Lemma email_stage_same o s :
  (truthy (website (data s)) = true -> harvest_throws o = false) ->
  email_stage CLI o s = email_stage Server o s.
Proof.
  intros H. unfold email_stage, bind, gets.
  destruct (truthy (website (data s))); [|reflexivity].
  specialize (H eq_refl). unfold harvest_throws in H.
  unfold try_catch, harvest_email, bind, newPage, await.
  destruct (new_page o) as [[]|e]; [|discriminate].
  destruct (goto_website o) as [[]|e]; [|discriminate].
  destruct (website_content o) as [content|e]; [|discriminate].
  destruct (match_emailRegex content); reflexivity.
Qed.

Lemma reviews_stage_keeps_website o s :
  website (data (snd (reviews_stage o s))) = website (data s).
Proof.
  assert (Hblind : blind_to website (fun d => website d = website (data s)))
    by (intros d d' E; congruence).
  assert (K : keeps (on_record (fun d => website d = website (data s)))
                    (reviews_stage o)).
  { unfold reviews_stage, harvest_reviews, expand_texts, scan_categories,
      chip_step, scan_names.
    keeps_fields Hblind.
    apply (review_loop_keeps_blind website); auto. }
  specialize (K s eq_refl).
  destruct (reviews_stage o s) as [[a|e] s']; exact K.
Qed.

Lemma harvest_stages_same o s :
  (truthy (website (data s)) = true -> harvest_throws o = false) ->
  harvest_stages CLI o s = harvest_stages Server o s.
Proof.
  intros H. unfold harvest_stages, bind.
  pose proof (reviews_stage_keeps_website o s) as Hw.
  destruct (reviews_stage o s) as [[a|e] s']; [|reflexivity].
  apply email_stage_same. cbn [snd] in Hw. rewrite Hw. exact H.
Qed.

Lemma set_attributes_same d : set_attributes (attributes d) d = d.
Proof. destruct d. reflexivity. Qed.

(** C9, as stated, fails: over the one-page sequence [sample_page],
    scraper.js produces a record with the key [attributes] and the server
    one without it. *)
Lemma programs_differ_counterexample :
  fst (scrape_urls CLI (fun _ => sample_page) [js "https://maps/place/1"] ctx0)
  <> fst (scrape_urls Server (fun _ => sample_page) [js "https://maps/place/1"] ctx0).
Proof.
  intros H. apply (f_equal (map attributes)) in H.
  vm_compute in H. discriminate.
Qed.

(** One listing: when the email block does not throw, the server's pass
    produces what scraper.js produces with the [attributes] key removed,
    and leaves the browser context the same. *)
Lemma listing_server_is_cli_without_attributes u o c :
  harvester_quiet u o c ->
  scrape_listing Server u o c
  = (option_map erase_attributes (fst (scrape_listing CLI u o c)),
     snd (scrape_listing CLI u o c)).
Proof.
  unfold harvester_quiet, resolved_website. intros Hq.
  unfold scrape_listing.
  rewrite listing_body_cli, listing_body_server. unfold bind.
  pose proof (commutes_keeps_attributes (pre_about o) (mkSt (new_data u) c)
                (pre_about_commutes o)) as Hpre.
  destruct (pre_about o (mkSt (new_data u) c)) as [[[]|e] s1];
    [|reflexivity].
  cbn [snd data new_data attributes] in Hpre, Hq.
  rewrite about_stage_effect.
  assert (Hput : exists y,
    match about_assigns o with
    | Some tags => put_attributes (Some tags) s1
    | None => s1
    end = put_attributes y s1).
  { destruct (about_assigns o) as [tags|].
    - exists (Some tags). reflexivity.
    - exists (attributes (data s1)). symmetry. apply put_attributes_same. }
  destruct Hput as (y & ->).
  rewrite harvest_stages_same by exact Hq.
  rewrite (harvest_stages_commutes Server o y s1).
  pose proof (commutes_keeps_attributes (harvest_stages Server o) s1
                (harvest_stages_commutes Server o)) as Hpost.
  destruct (harvest_stages Server o s1) as [[[]|e] s3];
    cbn [fst snd option_map put_attributes data context]; [|reflexivity].
  cbn [snd] in Hpost. unfold erase_attributes.
  f_equal. f_equal.
  change (set_attributes None (set_attributes y (data s3)))
    with (set_attributes None (data s3)).
  rewrite <- (set_attributes_same (data s3)) at 1.
  rewrite Hpost, Hpre. reflexivity.
Qed.

(** C9, amended.  Over every sequence of listing pages on which the email
    block does not throw, the server produces the records scraper.js
    produces with the [attributes] key removed, in the same order, and
    leaves the browser context the same: the same listings are kept or
    dropped and all other fields agree. *)
Theorem server_is_cli_without_attributes obs urls :
  (forall u c, In u urls -> harvester_quiet u (obs u) c) ->
  forall c,
    scrape_urls Server obs urls c
    = (map erase_attributes (fst (scrape_urls CLI obs urls c)),
       snd (scrape_urls CLI obs urls c)).
Proof.
  induction urls as [|u urls IH]; intros Hq c; [reflexivity|].
  cbn [scrape_urls].
  rewrite (listing_server_is_cli_without_attributes u (obs u) c)
    by (apply Hq; left; reflexivity).
  destruct (scrape_listing CLI u (obs u) c) as [r c1]. cbn [fst snd].
  rewrite IH by (intros u0 c0 H0; apply Hq; right; exact H0).
  destruct (scrape_urls CLI obs urls c1) as [rs c2]. cbn [fst snd].
  destruct r; reflexivity.
Qed.

Lemma server_is_cli_without_attributes_witness :
  scrape_urls Server (fun _ => sample_page) [js "https://maps/place/1"] ctx0
  = (map erase_attributes
       (fst (scrape_urls CLI (fun _ => sample_page) [js "https://maps/place/1"] ctx0)),
     snd (scrape_urls CLI (fun _ => sample_page) [js "https://maps/place/1"] ctx0)).
Proof.
  apply (server_is_cli_without_attributes (fun _ => sample_page)
           [js "https://maps/place/1"]).
  intros u c _ _. reflexivity.
Defined.

(* ================================================================== *)
(** * Further properties: discovery *)
(* ================================================================== *)

(** Statements whose assignments leave an invariant as it is, by
    computation. *)
Ltac keeps_same :=
  repeat first
    [ keeps_step
    | apply keeps_for_of; intros ? ?
    | unfold on_data; apply keeps_modify;
      let s := fresh "s" in let H := fresh "H" in intros s H; exact H ].

Lemma review_loop_keeps (J : St -> Prop) :
  (forall r s, J s -> J (mkSt (push_review r (data s)) (context s))) ->
  forall els, keeps J (review_loop els).
Proof.
  intros Hpush. induction els as [|el els IH]; cbn [review_loop].
  - apply keeps_ret.
  - repeat first
      [ exact IH
      | keeps_step
      | unfold on_data; apply keeps_modify; intros ? ?; apply Hpush;
        assumption ].
Qed.

Lemma firstn_short {A} n (l : list A) : length l <= n -> firstn n l = l.
Proof. apply firstn_all2. Qed.

(** The URL loop, from any point of its run. *)
Lemma collect_urls_from hrefs : forall urls,
  length urls < MAX_RESULTS ->
  collect_urls hrefs urls
  = firstn MAX_RESULTS
      (urls ++ filter (fun y => negb (arr_includes urls y))
                      (first_seen (href_strings hrefs))).
Proof.
  induction hrefs as [|href hrefs IH]; intros urls Hlen; cbn [collect_urls].
  - cbn [href_strings flat_map first_seen filter]. rewrite app_nil_r.
    symmetry. apply firstn_short. lia.
  - assert (Hskip :
      (if MAX_RESULTS <=? length urls then urls else collect_urls hrefs urls)
      = firstn MAX_RESULTS
          (urls ++ filter (fun y => negb (arr_includes urls y))
                          (first_seen (href_strings hrefs)))).
    { destruct (Nat.leb_spec MAX_RESULTS (length urls)); [lia|]. apply IH. lia. }
    destruct href as [|[|c h]]; try exact Hskip.
    cbn [truthy andb href_strings flat_map app first_seen].
    fold (href_strings hrefs).
    destruct (arr_includes urls (c :: h)) eqn:Ein; cbn [negb].
    + rewrite Hskip. cbn [filter]. rewrite Ein. cbn [negb].
      f_equal. f_equal. rewrite filter_filter. apply filter_ext_in.
      intros y _. destruct (str_eqb y (c :: h)) eqn:Ey; cbn [negb andb];
        [|reflexivity].
      apply str_eqb_eq in Ey. subst y. rewrite Ein. reflexivity.
    + cbn [filter]. rewrite Ein. cbn [negb].
      assert (Hfilter :
        filter (fun y => negb (arr_includes (urls ++ [c :: h]) y))
               (first_seen (href_strings hrefs))
        = filter (fun y => negb (arr_includes urls y))
            (filter (fun y => negb (str_eqb y (c :: h)))
                    (first_seen (href_strings hrefs)))).
      { rewrite filter_filter. apply filter_ext_in. intros y _.
        unfold arr_includes. rewrite existsb_app. cbn [existsb].
        rewrite orb_false_r, negb_orb. apply andb_comm. }
      match goal with
      | |- context [Nat.leb ?a ?b] =>
          destruct (Nat.leb_spec a b) as [Hfull|Hroom]
      end.
      * rewrite length_app in Hfull. cbn [length] in Hfull.
        assert (Hone : MAX_RESULTS - length urls = 1) by lia.
        rewrite firstn_app, Hone, firstn_short by lia.
        reflexivity.
      * rewrite IH by exact Hroom. rewrite <- app_assoc. cbn [app].
        f_equal. f_equal. f_equal. exact Hfilter.
Qed.

(** X1.  The collected URLs are the first [MAX_RESULTS] distinct non-empty
    [href]s of the article links, each where it is first seen; [null] and
    empty [href]s and repeats are passed over. *)
Theorem collected_urls_are_first_distinct_hrefs hrefs :
  collect_urls hrefs []
  = firstn MAX_RESULTS (first_seen (href_strings hrefs)).
Proof.
  rewrite collect_urls_from by (unfold MAX_RESULTS; cbn [length]; lia).
  cbn [app]. f_equal.
  induction (first_seen (href_strings hrefs)) as [|x l IH]; [reflexivity|].
  cbn [filter arr_includes existsb negb]. f_equal. exact IH.
Qed.

Lemma scroll_loop_from feed : forall k n fuel,
  (forall i, i < k -> short_of_results (feed (n + i))) ->
  ~ short_of_results (feed (n + k)) ->
  scroll_loop (S k + fuel) feed n
  = Some (if MAX_RESULTS <=? feed (n + k) then n + k else S (n + k)).
Proof.
  unfold short_of_results.
  induction k as [|k IH]; intros n fuel Hshort Hleave.
  - rewrite Nat.add_0_r in *. cbn [Nat.add scroll_loop].
    destruct (Nat.leb_spec MAX_RESULTS (feed n)); [reflexivity|].
    destruct (Nat.ltb_spec 0 (feed n)); cbn [andb]; [|reflexivity].
    destruct (Nat.ltb_spec (feed n) MAX_RESULTS); [lia | reflexivity].
  - change (S (S k) + fuel) with (S (S k + fuel)). cbn [scroll_loop].
    pose proof (Hshort 0 (Nat.lt_0_succ k)) as H0. rewrite Nat.add_0_r in H0.
    destruct (Nat.leb_spec MAX_RESULTS (feed n)); [lia|].
    destruct (Nat.ltb_spec 0 (feed n)); [|lia].
    destruct (Nat.ltb_spec (feed n) MAX_RESULTS); [|lia].
    cbn [andb]. rewrite (IH (S n) fuel).
    + replace (S n + k) with (n + S k) by lia. reflexivity.
    + intros i Hi. replace (S n + i) with (n + S i) by lia.
      apply Hshort. lia.
    + replace (S n + k) with (n + S k) by lia. exact Hleave.
Qed.

(** X2.  When the feed shows some but fewer than [MAX_RESULTS] results at
    the first [k] polls, and at the next poll either none or at least
    [MAX_RESULTS], the scroll loop leaves at that poll: after [k] scrolls
    when the results are enough, after one more scroll when there are
    none. *)
Theorem scroll_loop_leaves_at_first_decisive_poll feed k fuel :
  (forall i, i < k -> short_of_results (feed i)) ->
  ~ short_of_results (feed k) ->
  scroll_loop (S k + fuel) feed 0
  = Some (if MAX_RESULTS <=? feed k then k else S k).
Proof.
  intros Hshort Hleave. apply (scroll_loop_from feed k 0 fuel); assumption.
Qed.

Lemma scroll_loop_leaves_at_first_decisive_poll_witness :
  scroll_loop (S 3 + 0) (fun n => 3 * n + 2) 0 = Some 3.
Proof.
  apply (scroll_loop_leaves_at_first_decisive_poll (fun n => 3 * n + 2) 3 0).
  - intros i Hi. unfold short_of_results, MAX_RESULTS. lia.
  - unfold short_of_results, MAX_RESULTS. lia.
Defined.

(* ================================================================== *)
(** * Further properties: the records of a run *)
(* ================================================================== *)

Ltac unfold_stages :=
  unfold listing_body, name_stage, buttons_stage, button_step, website_stage,
    rating_stage, about_stage, reviews_stage, harvest_reviews, expand_texts,
    scan_categories, chip_step, scan_names, email_stage, harvest_email,
    email_catch.

(** Invariants of the record that no assignment of the statement at hand
    touches. *)
Ltac keeps_untouched :=
  repeat first
    [ keeps_step
    | apply keeps_for_of; intros ? ?
    | apply newPage_keeps
    | apply close_keeps
    | apply review_loop_keeps;
      let r := fresh "r" in let s := fresh "s" in let H := fresh "H" in
      intros r s H; exact H
    | unfold on_data; apply keeps_modify;
      let s := fresh "s" in let H := fresh "H" in intros s H; exact H ].

Lemma listing_keeps_url prog u o c d c' :
  scrape_listing prog u o c = (Some d, c') -> url d = u.
Proof.
  intros Hrun. unfold scrape_listing in Hrun.
  assert (K : keeps (on_record (fun d0 => url d0 = u)) (listing_body prog o)).
  { unfold_stages. keeps_untouched. }
  specialize (K (mkSt (new_data u) c) eq_refl).
  destruct (listing_body prog o (mkSt (new_data u) c)) as [[a|e] s];
    inversion Hrun; subst. exact K.
Qed.

Lemma subseq_length {A} (l1 l2 : list A) : subseq l1 l2 -> length l1 <= length l2.
Proof. induction 1; simpl; lia. Qed.

Lemma subseq_In {A} (l1 l2 : list A) x : subseq l1 l2 -> In x l1 -> In x l2.
Proof.
  induction 1; simpl; auto.
  intros [E | H']; auto.
Qed.

Lemma subseq_NoDup {A} (l1 l2 : list A) : subseq l1 l2 -> NoDup l2 -> NoDup l1.
Proof.
  induction 1; intros Hnd; auto.
  - inversion Hnd; auto.
  - inversion Hnd; subst. constructor; auto.
    intros Hx. eauto using subseq_In.
Qed.

Lemma scrape_urls_subseq prog obs urls : forall c,
  subseq (map url (fst (scrape_urls prog obs urls c))) urls.
Proof.
  induction urls as [|u urls IH]; intros c; cbn [scrape_urls].
  - constructor.
  - destruct (scrape_listing prog u (obs u) c) as [r c1] eqn:E1.
    specialize (IH c1).
    destruct (scrape_urls prog obs urls c1) as [rs c2]. cbn [fst] in *.
    destruct r as [d|].
    + cbn [map]. rewrite (listing_keeps_url _ _ _ _ _ _ E1).
      apply subseq_keep. exact IH.
    + apply subseq_skip. exact IH.
Qed.

(** X3.  The records of a run come in the order in which their URLs were
    collected: each record carries the URL it was scraped from, dropped
    listings leave no trace, no URL occurs on two records, and there are
    at most [MAX_RESULTS] records. *)
Theorem run_records_follow_collected_urls prog fuel ro records :
  runScraper prog fuel ro = Some records ->
  subseq (map url records) (collect_urls (article_hrefs ro) []) /\
  NoDup (map url records) /\
  length records <= MAX_RESULTS.
Proof.
  unfold runScraper. destruct (scroll_loop fuel (feed ro) 0); [|discriminate].
  intros H. inversion H; subst records. clear H.
  pose proof (scrape_urls_subseq prog (listing_obs ro)
                (collect_urls (article_hrefs ro) []) (mkContext 0 [])) as Hsub.
  destruct (collect_urls_spec (article_hrefs ro) [] (NoDup_nil _))
    as [Hnd Hlen]; [unfold MAX_RESULTS; cbn [length]; lia|].
  split; [exact Hsub|]. split.
  - exact (subseq_NoDup _ _ Hsub Hnd).
  - apply subseq_length in Hsub. rewrite length_map in Hsub. lia.
Qed.

Lemma run_records_follow_collected_urls_witness :
  subseq (map url [sample_record])
         (collect_urls (article_hrefs sample_run_obs) []) /\
  NoDup (map url [sample_record]) /\
  length [sample_record] <= MAX_RESULTS.
Proof.
  apply (run_records_follow_collected_urls CLI 1 sample_run_obs [sample_record]).
  vm_compute. reflexivity.
Defined.

(* ================================================================== *)
(** * Further properties: which listings are dropped *)
(* ================================================================== *)

Lemma throws_bind {S A B} (m : M S A) (k : A -> M S B) s :
  throws (bind m k s)
  = throws (m s) || match m s with
                    | (Ok a, s') => throws (k a s')
                    | (Throw _, _) => false
                    end.
Proof.
  unfold bind, throws. destruct (m s) as [[a|e] s']; cbn [fst]; reflexivity.
Qed.

Lemma try_swallow_never_throws {S} (m : M S unit) s :
  throws (try_catch m (fun _ => ret tt) s) = false.
Proof.
  unfold try_catch, throws. destruct (m s) as [[a|e] s']; reflexivity.
Qed.

Lemma button_step_throws btn s : throws (button_step btn s) = button_throws btn.
Proof.
  unfold button_step, button_throws, bind, await, non_null, throw, ret, when,
    on_data, modify, throws.
  destruct (btn_textContent btn) as [text|e]; [|reflexivity].
  destruct (btn_ariaLabel btn) as [ariaLabel|e]; [|reflexivity].
  destruct (btn_itemId btn) as [[|itemId]|e]; try reflexivity.
  destruct (includes itemId (js "address"));
    destruct (includes itemId (js "phone"));
    destruct (includes itemId (js "authority")); reflexivity.
Qed.

Lemma button_loop_throws buttons : forall s,
  throws (for_of buttons button_step s) = existsb button_throws buttons.
Proof.
  induction buttons as [|btn buttons IH]; intros s; [reflexivity|].
  cbn [for_of existsb]. rewrite throws_bind, button_step_throws.
  destruct (button_step btn s) as [[a|e] s'] eqn:E.
  - rewrite IH. reflexivity.
  - pose proof (button_step_throws btn s) as Hb. rewrite E in Hb.
    cbn in Hb. rewrite <- Hb. reflexivity.
Qed.

Lemma buttons_stage_throws o s : throws (buttons_stage o s) = buttons_throw o.
Proof.
  unfold buttons_stage, buttons_throw. rewrite throws_bind. unfold await.
  destruct (item_buttons o) as [buttons|e]; [|reflexivity].
  cbn [throws fst orb]. apply button_loop_throws.
Qed.

Lemma website_stage_throws o s : throws (website_stage o s) = link_throws o.
Proof.
  unfold website_stage, link_throws, bind, await, on_data, modify, ret, throws.
  destruct (authority_link o) as [[[v|e]|]|e]; reflexivity.
Qed.

Lemma pre_about_throws o s : throws (pre_about o s) = fields_throw o.
Proof.
  unfold pre_about, fields_throw, goto_throws.
  rewrite throws_bind. unfold await at 1 2.
  destruct (goto_listing o) as [[]|e]; [|reflexivity].
  cbn [throws fst orb]. rewrite throws_bind.
  pose proof (try_swallow_never_throws
                (v <- await (h1_textContent o) ;; on_data (set_name v)) s) as Hn.
  fold (name_stage o) in Hn. rewrite Hn. cbn [orb].
  destruct (name_stage o s) as [[[]|e] s1]; [|discriminate Hn].
  rewrite throws_bind, buttons_stage_throws.
  destruct (buttons_stage o s1) as [[[]|e] s2] eqn:Eb.
  - rewrite throws_bind, website_stage_throws.
    destruct (website_stage o s2) as [[[]|e] s3] eqn:Ew.
    + unfold rating_stage. rewrite try_swallow_never_throws.
      rewrite !orb_false_r. reflexivity.
    + rewrite !orb_false_r. reflexivity.
  - rewrite orb_false_r.
    pose proof (buttons_stage_throws o s1) as Hb. rewrite Eb in Hb.
    cbn in Hb. rewrite <- Hb. reflexivity.
Qed.

Lemma reviews_stage_never_throws o s : throws (reviews_stage o s) = false.
Proof. unfold reviews_stage. apply try_swallow_never_throws. Qed.

Lemma server_email_never_throws o s : throws (email_stage Server o s) = false.
Proof.
  unfold email_stage, bind, gets.
  destruct (truthy (website (data s))); [|reflexivity].
  unfold email_catch, try_catch, throws.
  destruct (harvest_email o s) as [[a|e] s']; reflexivity.
Qed.

Lemma server_harvest_never_throws o s :
  throws (harvest_stages Server o s) = false.
Proof.
  unfold harvest_stages. rewrite throws_bind, reviews_stage_never_throws.
  pose proof (reviews_stage_never_throws o s) as Hr.
  destruct (reviews_stage o s) as [[[]|e] s']; [|discriminate Hr].
  apply server_email_never_throws.
Qed.

(** X4.  The server drops a listing exactly when opening the listing, one
    of the calls on a details button (or a [null] id on one), or reading
    the website link throws: the name, rating, reviews, categories, names
    and email blocks never cost it a listing. *)
Theorem server_drops_only_on_unguarded_calls u o c :
  fst (scrape_listing Server u o c) = None <-> fields_throw o = true.
Proof.
  unfold scrape_listing. rewrite listing_body_server.
  rewrite <- (pre_about_throws o (mkSt (new_data u) c)).
  unfold bind, throws.
  destruct (pre_about o (mkSt (new_data u) c)) as [[[]|e] s1]; cbn [fst].
  - pose proof (server_harvest_never_throws o s1) as Hh. unfold throws in Hh.
    destruct (harvest_stages Server o s1) as [[[]|e] s2]; cbn [fst] in *;
      [|discriminate Hh].
    split; discriminate.
  - split; reflexivity.
Qed.



Lemma email_stage_keeps_website prog o s :
  website (data (snd (email_stage prog o s))) = website (data s).
Proof.
  assert (K : keeps (on_record (fun d => website d = website (data s)))
                    (email_stage prog o)).
  { unfold_stages. keeps_untouched. }
  specialize (K s eq_refl).
  destruct (email_stage prog o s) as [[a|e] s']; exact K.
Qed.


(* ================================================================== *)
(** * Further properties: the field resolver *)
(* ================================================================== *)

Lemma listing_body_stages prog o :
  listing_body prog o
  = (await (goto_listing o) ;; name_stage o ;; after_name prog o).
Proof. reflexivity. Qed.

Lemma produced_from_keeps (I : ListingRecord -> Prop) prog o d :
  (forall u, I (new_data u)) ->
  keeps (on_record I) (listing_body prog o) ->
  produced prog o d -> I d.
Proof.
  intros H0 K (u & c & c' & Hrun). unfold scrape_listing in Hrun.
  specialize (K (mkSt (new_data u) c) (H0 u)).
  destruct (listing_body prog o (mkSt (new_data u) c)) as [[a|e] s];
    inversion Hrun; subst. exact K.
Qed.

Lemma kept_after {A} (I : ListingRecord -> Prop) (m : M St A) s :
  keeps (on_record I) m -> I (data s) -> I (data (snd (m s))).
Proof.
  intros K H. specialize (K s H). destruct (m s) as [[a|e] s']; exact K.
Qed.

Lemma name_stage_effect o s :
  name_stage o s
  = (Ok tt, match h1_textContent o with
            | Ok v => mkSt (set_name v (data s)) (context s)
            | Throw _ => s
            end).
Proof.
  unfold name_stage, try_catch, bind, await, on_data, modify, ret.
  destruct (h1_textContent o); reflexivity.
Qed.

(** X6.  The [name] of a produced record is whatever reading the heading
    gave, [null] included, and the empty string when reading it threw: a
    failure there never costs the listing. *)
Theorem name_is_heading_or_empty prog o d :
  produced prog o d -> name d = resolved_name o.
Proof.
  intros (u & c & c' & Hrun). unfold scrape_listing in Hrun.
  rewrite listing_body_stages in Hrun. unfold bind in Hrun.
  destruct (await (goto_listing o) (mkSt (new_data u) c)) as [[[]|e] s0] eqn:E0;
    [|discriminate].
  assert (Hs0 : name (data s0) = JStr []).
  { unfold await in E0. inversion E0; subst. reflexivity. }
  rewrite name_stage_effect in Hrun.
  set (s1 := match h1_textContent o with
             | Ok v => mkSt (set_name v (data s0)) (context s0)
             | Throw _ => s0
             end) in Hrun.
  assert (Hs1 : name (data s1) = resolved_name o).
  { subst s1. unfold resolved_name. destruct (h1_textContent o); auto. }
  assert (K : keeps (on_record (fun d0 => name d0 = resolved_name o))
                    (after_name prog o)).
  { unfold after_name, after_buttons, after_website, after_rating,
      harvest_stages. unfold_stages. keeps_untouched. }
  pose proof (kept_after _ _ s1 K Hs1) as Hend.
  destruct (after_name prog o s1) as [[[]|e] s2]; [|discriminate].
  injection Hrun as Hd Hc. rewrite <- Hd. exact Hend.
Qed.

Lemma name_is_heading_or_empty_witness :
  name sample_record = resolved_name sample_page.
Proof.
  apply (name_is_heading_or_empty CLI sample_page sample_record).
  exact sample_produced.
Defined.

(** X7.  When the page has a website link, [website] is the link's
    [href], [null] included, whatever the details buttons said. *)
Theorem website_link_overrides_button prog o d href :
  produced prog o d ->
  authority_link o = Ok (Some (Ok href)) ->
  website d = href.
Proof.
  intros (u & c & c' & Hrun) Hlink. unfold scrape_listing in Hrun.
  rewrite listing_body_stages in Hrun. unfold after_name, after_buttons in Hrun.
  unfold bind in Hrun.
  destruct (await (goto_listing o) (mkSt (new_data u) c)) as [[[]|e] s0];
    [|discriminate].
  destruct (name_stage o s0) as [[[]|e] s1]; [|discriminate].
  destruct (buttons_stage o s1) as [[[]|e] s2]; [|discriminate].
  assert (Hw : website_stage o s2
               = (Ok tt, mkSt (set_website href (data s2)) (context s2))).
  { unfold website_stage, bind, await, on_data, modify. rewrite Hlink.
    reflexivity. }
  rewrite Hw in Hrun.
  assert (K : keeps (on_record (fun d0 => website d0 = href))
                    (after_website prog o)).
  { unfold after_website, after_rating, harvest_stages. unfold_stages.
    keeps_untouched. }
  pose proof (kept_after _ _ (mkSt (set_website href (data s2)) (context s2))
                K eq_refl) as Hend.
  destruct (after_website prog o _) as [[[]|e] s3]; [|discriminate].
  injection Hrun as Hd Hc. rewrite <- Hd. exact Hend.
Qed.

Lemma website_link_overrides_button_witness :
  website sample_record = JStr (js "https://realbiz.com").
Proof.
  apply (website_link_overrides_button CLI sample_page sample_record).
  - exact sample_produced.
  - reflexivity.
Defined.

(** X8.  [reviewCount] of a produced record holds digits only. *)
Theorem review_count_is_digits prog o d :
  produced prog o d -> forallb is_digit (reviewCount d) = true.
Proof.
  apply (produced_from_keeps
           (fun d0 => forallb is_digit (reviewCount d0) = true));
    [reflexivity|].
  unfold_stages. keeps_untouched;
    apply keeps_on_data; intros d0 _; cbn [reviewCount set_reviewCount];
    unfold keep_digits; apply forallb_filter.
Qed.

Lemma review_count_is_digits_witness :
  forallb is_digit (reviewCount sample_record) = true.
Proof.
  apply (review_count_is_digits CLI sample_page sample_record).
  exact sample_produced.
Defined.

Lemma rating_stage_aborted o s :
  rating_lookup_throws o = true -> rating_stage o s = (Ok tt, s).
Proof.
  unfold rating_lookup_throws, rating_stage, try_catch, bind, await, non_null,
    throw, ret.
  destruct (stars_count o) as [n|e]; [|reflexivity].
  destruct (positive n).
  - destruct (stars_aria o) as [[|a]|e]; try reflexivity. discriminate.
  - destruct (text_rating_count o) as [m|e]; [|reflexivity].
    destruct (positive m); [|discriminate].
    destruct (text_rating_text o) as [v|e]; [discriminate | reflexivity].
Qed.

(** X9.  The rating and the review count are resolved in one [try]: when
    resolving the rating throws, the review count is never looked up, and
    both fields of the produced record are empty. *)
Theorem failed_rating_loses_review_count prog o d :
  produced prog o d ->
  rating_lookup_throws o = true ->
  rating d = JStr [] /\ reviewCount d = [].
Proof.
  intros Hp Hthrow. revert Hp.
  apply (produced_from_keeps
           (fun d0 => rating d0 = JStr [] /\ reviewCount d0 = [])).
  { intros u. split; reflexivity. }
  rewrite listing_body_stages.
  unfold after_name, after_buttons, after_website.
  apply keeps_bind; [apply keeps_await | intros _].
  apply keeps_bind; [unfold name_stage; keeps_untouched | intros _].
  apply keeps_bind;
    [unfold buttons_stage, button_step; keeps_untouched | intros _].
  apply keeps_bind; [unfold website_stage; keeps_untouched | intros _].
  apply keeps_bind.
  - intros s Hs. rewrite rating_stage_aborted by exact Hthrow. exact Hs.
  - intros _. unfold after_rating, harvest_stages. unfold_stages.
    keeps_untouched.
Qed.

Lemma failed_rating_loses_review_count_witness :
  rating stars_failing_record = JStr [] /\ reviewCount stars_failing_record = [].
Proof.
  apply (failed_rating_loses_review_count Server stars_failing_page
           stars_failing_record).
  - exists (js "https://maps/place/4"), ctx0, ctx0. vm_compute. reflexivity.
  - reflexivity.
Defined.

(* ================================================================== *)
(** * Further properties: reviews and categories *)
(* ================================================================== *)







Lemma chip_tail_no_comma s count : chip_tail s = Some count -> ~ In 44%N s.
Proof.
  intros H. destruct (chip_tail_spec s count H)
    as (_ & Hd & ws & suffix & Hws & Hsuf & ->).
  intros Hin.
  assert (Hall : forall l p, forallb p l = true -> p 44%N = false -> ~ In 44%N l).
  { intros l p Hl Hp Hc. rewrite forallb_forall in Hl.
    specialize (Hl _ Hc). congruence. }
  apply in_app_or in Hin. destruct Hin as [Hin | Hin];
    [exact (Hall ws is_space Hws eq_refl Hin)|].
  apply in_app_or in Hin. destruct Hin as [Hin | Hin].
  { vm_compute in Hin. repeat (destruct Hin as [Hin | Hin]; [discriminate|]).
    exact Hin. }
  apply in_app_or in Hin. destruct Hin as [Hin | Hin];
    [exact (Hall count is_digit Hd eq_refl Hin)|].
  destruct Hsuf; subst suffix; vm_compute in Hin;
    repeat (destruct Hin as [Hin | Hin]; [discriminate|]); exact Hin.
Qed.

Lemma chip_scan_exact rest count : chip_tail rest = Some count ->
  forall subject acc,
    forallb is_dot subject = true ->
    acc ++ subject <> [] ->
    chip_scan acc (subject ++ 44%N :: rest) = Some (acc ++ subject, count).
Proof.
  intros Ht. induction subject as [|c t IH]; intros acc Hdot Hne.
  - rewrite app_nil_r in *. cbn [app chip_scan].
    destruct acc as [|a acc]; [congruence|].
    rewrite N.eqb_refl, Ht. reflexivity.
  - cbn [forallb] in Hdot. apply andb_true_iff in Hdot.
    destruct Hdot as [Hc Hdot]. cbn [app chip_scan].
    assert (Hhere :
      match acc with
      | [] => None
      | _ :: _ => if (c =? 44)%N then chip_tail (t ++ 44%N :: rest) else None
      end = None).
    { destruct acc; [reflexivity|]. destruct (c =? 44)%N; [|reflexivity].
      destruct (chip_tail (t ++ 44%N :: rest)) as [cnt|] eqn:E; [|reflexivity].
      exfalso. apply (chip_tail_no_comma _ _ E).
      apply in_or_app. right. left. reflexivity. }
    rewrite Hhere. unfold is_dot in Hc.
    destruct (is_line_terminator c); [discriminate|].
    rewrite IH; [| exact Hdot | destruct acc; discriminate].
    rewrite <- app_assoc. reflexivity.
Qed.

(** X11.  A chip label of the form subject, comma, optional white space,
    [mentioned in N review] or [mentioned in N reviews] is rewritten to
    exactly [subject (N)]: the whole subject is kept, commas inside it
    included, and nothing else of the label. *)
Theorem counted_label_is_normalised subject ws count suffix :
  subject <> [] -> forallb is_dot subject = true ->
  forallb is_space ws = true ->
  count <> [] -> forallb is_digit count = true ->
  suffix = js " review" \/ suffix = js " reviews" ->
  category_entry
    (JStr (subject ++ 44%N :: ws ++ js "mentioned in " ++ count ++ suffix))
  = Some (subject ++ js " (" ++ count ++ js ")").
Proof.
  intros Hne Hdot Hws Hcne Hd Hsuf.
  pose proof (chip_tail_complete ws count suffix Hws Hcne Hd Hsuf) as Ht.
  pose proof (chip_scan_exact _ _ Ht subject [] Hdot) as Hscan.
  cbn [app] in Hscan. specialize (Hscan Hne).
  unfold category_entry.
  assert (Hinc : includes
            (subject ++ 44%N :: ws ++ js "mentioned in " ++ count ++ suffix)
            (js "mentioned in") = true).
  { apply includes_spec. exists (subject ++ 44%N :: ws), (32%N :: count ++ suffix).
    rewrite <- app_assoc. reflexivity. }
  rewrite Hinc. destruct subject as [|c0 subject]; [congruence|].
  cbn [app truthy andb]. unfold chip_match.
  cbn [app] in Hscan. rewrite Hscan. reflexivity.
Qed.

Lemma counted_label_is_normalised_witness :
  category_entry
    (JStr (js "fast, friendly" ++ 44%N :: js " " ++ js "mentioned in "
           ++ js "11" ++ js " reviews"))
  = Some (js "fast, friendly" ++ js " (" ++ js "11" ++ js ")").
Proof.
  apply (counted_label_is_normalised (js "fast, friendly") (js " ") (js "11")
           (js " reviews")).
  - discriminate.
  - reflexivity.
  - reflexivity.
  - discriminate.
  - reflexivity.
  - right. reflexivity.
Defined.

(* ================================================================== *)
(** * Further properties: mentioned names *)
(* ================================================================== *)

Lemma names_from_at s : forall skip prev m,
  In m (names_from skip prev s) -> exists t, name_at t = Some m.
Proof.
  induction s as [|c s IH]; intros skip prev m; cbn [names_from];
    [contradiction|].
  destruct skip as [|k]; [|apply IH].
  destruct prev; [apply IH|].
  destruct (name_at (c :: s)) as [m0|] eqn:E; [|apply IH].
  intros [<- | H]; [eauto | exact (IH _ _ _ H)].
Qed.

Lemma lower_not_space c : is_lower c = true -> is_space c = false.
Proof.
  intros H. destruct (is_space c) eqn:E; [|reflexivity].
  rewrite (space_not_lower c E) in H. discriminate.
Qed.

Lemma word_re_ends w :
  Regex.lang word_re w ->
  (exists c t, w = c :: t /\ is_upper c = true) /\
  (exists x t, rev w = x :: t /\ is_lower x = true).
Proof.
  intros H. unfold word_re in H.
  apply RegexInv.cat_inv in H. destruct H as (u & s1 & -> & Hu & H).
  apply RegexInv.cat_inv in H. destruct H as (a & s2 & -> & Ha & H).
  apply RegexInv.cat_inv in H. destruct H as (b & low & -> & Hb & Hlow).
  apply RegexInv.cls_inv in Hu. destruct Hu as (c & -> & Hc).
  apply RegexInv.cls_inv in Ha. destruct Ha as (a0 & -> & Ha).
  apply RegexInv.cls_inv in Hb. destruct Hb as (b0 & -> & Hb).
  apply RegexInv.star_cls_inv in Hlow.
  split; [exists c, ([a0] ++ [b0] ++ low); auto|].
  destruct low as [|l0 low] using rev_ind.
  - exists b0, [a0; c]. auto.
  - exists l0. rewrite forallb_app in Hlow. apply andb_true_iff in Hlow.
    destruct Hlow as [_ Hl]. cbn in Hl. rewrite andb_true_r in Hl.
    eexists. split; [|exact Hl].
    replace ([c] ++ [a0] ++ [b0] ++ low ++ [l0])
      with ((c :: a0 :: b0 :: low) ++ [l0])
      by (cbn [app]; rewrite <- ?app_comm_cons; reflexivity).
    rewrite rev_app_distr. reflexivity.
Qed.

(** Trimming leaves a string alone that neither starts nor ends with
    white space. *)
Lemma trim_same m c t x t2 :
  m = c :: t -> rev m = x :: t2 ->
  is_space c = false -> is_space x = false ->
  trim m = m.
Proof.
  intros Em Er Hc Hx. unfold trim. rewrite Em at 1. cbn [dropWhile].
  rewrite Hc, <- Em, Er. cbn [dropWhile]. rewrite Hx, <- Er.
  apply rev_involutive.
Qed.

(** Trimming leaves a match of the name pattern as it is. *)
Lemma trim_name m : Regex.lang namePattern m -> trim m = m.
Proof.
  intros H. unfold namePattern in H.
  apply RegexInv.cat_inv in H. destruct H as (w1 & s1 & -> & Hw1 & H).
  apply RegexInv.cat_inv in H. destruct H as (sp & w2 & -> & _ & Hw2).
  destruct (word_re_ends w1 Hw1) as [(c & t & -> & Hc) _].
  destruct (word_re_ends w2 Hw2) as [_ (x & t2 & Hrev & Hx)].
  apply (trim_same _ c (t ++ sp ++ w2) x (t2 ++ rev sp ++ rev (c :: t))).
  - reflexivity.
  - rewrite !rev_app_distr, Hrev, <- app_assoc. reflexivity.
  - apply upper_not_space. exact Hc.
  - apply lower_not_space. exact Hx.
Qed.

(** X12.  Every entry of [mentionedNames] is a match of the name pattern,
    two capitalised words of three or more letters with white space
    between them, and holds no line feed. *)
Theorem mentioned_names_are_name_shaped prog o d n :
  produced prog o d ->
  In n (mentionedNames d) ->
  Regex.lang namePattern n /\ ~ In 10%N n.
Proof.
  intros Hp Hn. destruct (produced_names_ok _ _ _ Hp) as [E | E];
    rewrite E in Hn; [contradiction|].
  rewrite mine_names_first_seen in Hn.
  apply first_seen_In, filter_In in Hn. destruct Hn as [Hn Hacc].
  unfold name_candidates in Hn. apply in_map_iff in Hn.
  destruct Hn as (m & <- & Hm). apply in_flat_map in Hm.
  destruct Hm as (review & _ & Hm).
  assert (Hlang : Regex.lang namePattern m).
  { unfold name_matches in Hm.
    destruct (Review.text review) as [[|s]|]; try contradiction.
    destruct (truthy (JStr s)); [|contradiction].
    unfold match_namePattern in Hm.
    destruct (names_from_at _ _ _ _ Hm) as (t & Ht).
    apply name_at_iff in Ht. destruct Ht as (rest & _ & Hl & _). exact Hl. }
  rewrite (trim_name m Hlang) in *. split; [exact Hlang|].
  intros Hin. unfold acceptable in Hacc.
  apply andb_true_iff in Hacc. destruct Hacc as [_ Hnl].
  apply negb_true_iff in Hnl.
  apply in_split in Hin. destruct Hin as (a & b & Hsplit).
  assert (Hinc : includes m [10%N] = true)
    by (apply includes_spec; exists a, b; exact Hsplit).
  congruence.
Qed.

Lemma mentioned_names_are_name_shaped_witness :
  Regex.lang namePattern (js "John Doe") /\ ~ In 10%N (js "John Doe").
Proof.
  apply (mentioned_names_are_name_shaped CLI sample_page sample_record).
  - exact sample_produced.
  - left. reflexivity.
Defined.

(* ================================================================== *)
(** * Further properties: the email block and the secondary page *)
(* ================================================================== *)

Lemma fold_set_add l : forall seen,
  fold_left set_add l seen
  = seen ++ filter (fun y => negb (arr_includes seen y)) (first_seen l).
Proof.
  induction l as [|x l IH]; intros seen; cbn [fold_left first_seen filter].
  - rewrite app_nil_r. reflexivity.
  - rewrite IH. unfold set_add.
    destruct (arr_includes seen x) eqn:Ein; cbn [negb].
    + f_equal. rewrite filter_filter. apply filter_ext_in. intros y _.
      destruct (str_eqb y x) eqn:Ey; cbn [negb andb]; [|reflexivity].
      apply str_eqb_eq in Ey. subst y. rewrite Ein. reflexivity.
    + rewrite <- app_assoc. cbn [app]. f_equal. f_equal.
      rewrite filter_filter. apply filter_ext_in. intros y _.
      unfold arr_includes. rewrite existsb_app. cbn [existsb].
      rewrite orb_false_r, negb_orb. apply andb_comm.
Qed.

(** [new Set] keeps each string where it is first seen. *)
Lemma new_Set_first_seen l : new_Set l = first_seen l.
Proof.
  unfold new_Set. rewrite fold_set_add. cbn [app].
  induction (first_seen l) as [|x t IH]; [reflexivity|].
  cbn [filter arr_includes existsb negb]. f_equal. exact IH.
Qed.

(** The state in which the email block is entered: nothing written to
    [email] yet, and the browser context as the pass found it. *)
Lemma email_stage_input prog u o c d c' :
  scrape_listing prog u o c = (Some d, c') ->
  exists s,
    email (data s) = [] /\ context s = c /\
    email_stage prog o s = (Ok tt, mkSt d c').
Proof.
  intros Hrun. unfold scrape_listing in Hrun.
  rewrite listing_body_split in Hrun. unfold bind in Hrun.
  set (J := fun s : St => email (data s) = [] /\ context s = c).
  assert (K1 : keeps J (field_stages o prog)).
  { unfold field_stages. unfold_stages. subst J. keeps_untouched. }
  assert (K2 : keeps J (reviews_stage o)).
  { unfold_stages. subst J. keeps_untouched. }
  specialize (K1 (mkSt (new_data u) c) (conj eq_refl eq_refl)).
  destruct (field_stages o prog (mkSt (new_data u) c)) as [[[]|e] s1];
    [|discriminate].
  specialize (K2 s1 K1).
  destruct (reviews_stage o s1) as [[[]|e] s2]; [|discriminate].
  destruct K2 as [He Hc]. exists s2. split; [exact He|]. split; [exact Hc|].
  destruct (email_stage prog o s2) as [[[]|e] [d3 c3]]; [|discriminate].
  inversion Hrun; subst. reflexivity.
Qed.

(** X13.  When the listing has a website and the calls of the email block
    answer, [email] holds every match of the email pattern in the page
    content that passes the filter, once, in the order of first
    occurrence, joined with a comma and a space. *)
Theorem email_lists_all_kept_matches prog o d content :
  produced prog o d ->
  truthy (website d) = true ->
  harvest_throws o = false ->
  website_content o = Ok content ->
  email d
  = join (js ", ") (filter keep_email (first_seen (match_emailRegex content))).
Proof.
  intros (u & c & c' & Hrun) Hsite Hquiet Hcontent.
  destruct (email_stage_input _ _ _ _ _ _ Hrun) as (s & He & _ & Hstage).
  pose proof (email_stage_keeps_website prog o s) as Hw.
  rewrite Hstage in Hw. cbn [snd data] in Hw. rewrite Hw in Hsite.
  unfold email_stage, bind, gets in Hstage. rewrite Hsite in Hstage.
  unfold harvest_throws in Hquiet.
  unfold try_catch, harvest_email, bind, newPage, await in Hstage.
  destruct (new_page o) as [[]|e]; [|discriminate].
  destruct (goto_website o) as [[]|e]; [|discriminate].
  rewrite Hcontent in Hstage.
  rewrite <- new_Set_first_seen. fold (uniqueEmails (match_emailRegex content)).
  destruct (match_emailRegex content) as [|m ms] eqn:Em;
    unfold close, modify, on_data, ret in Hstage;
    cbn [data context] in Hstage; inversion Hstage; subst d.
  - cbn [set_email email]. exact He.
  - reflexivity.
Qed.

Lemma email_lists_all_kept_matches_witness :
  email sample_record
  = join (js ", ")
      (filter keep_email
         (first_seen
            (match_emailRegex
               (js "mail contact@example.com or info@realbiz.com, logo@2x.png")))).
Proof.
  apply (email_lists_all_kept_matches CLI sample_page sample_record).
  - exact sample_produced.
  - reflexivity.
  - reflexivity.
  - reflexivity.
Defined.

(** X14.  A listing without a website (an empty or [null] [website]) has
    an empty [email], and no secondary page is opened for it: the browser
    context is as before the pass. *)
Theorem no_website_no_visit prog u o c d c' :
  scrape_listing prog u o c = (Some d, c') ->
  truthy (website d) = false ->
  email d = [] /\ c' = c.
Proof.
  intros Hrun Hsite.
  destruct (email_stage_input _ _ _ _ _ _ Hrun) as (s & He & Hc & Hstage).
  pose proof (email_stage_keeps_website prog o s) as Hw.
  rewrite Hstage in Hw. cbn [snd data] in Hw. rewrite Hw in Hsite.
  rewrite (email_stage_skipped prog o s Hsite) in Hstage.
  inversion Hstage; subst s. cbn [data context] in *. auto.
Qed.

Lemma no_website_no_visit_witness :
  email passing_record = [] /\ ctx0 = ctx0.
Proof.
  apply (no_website_no_visit CLI (js "https://maps/place/2") passing_page ctx0
           passing_record ctx0).
  - vm_compute. reflexivity.
  - reflexivity.
Defined.

Lemma email_stage_quiet_context prog o s :
  harvest_throws o = false ->
  ctx_fresh (context s) ->
  open_pages (context (snd (email_stage prog o s))) = open_pages (context s) /\
  next_page (context s) <= next_page (context (snd (email_stage prog o s))).
Proof.
  intros Hquiet Hfresh. unfold email_stage, bind, gets.
  destruct (truthy (website (data s))); [|cbn [ret snd]; auto].
  unfold harvest_throws in Hquiet.
  assert (Hclose :
    filter (fun q => negb (q =? next_page (context s)))
           (next_page (context s) :: open_pages (context s))
    = open_pages (context s)).
  { cbn [filter]. rewrite Nat.eqb_refl. cbn [negb].
    apply forallb_filter_id. apply forallb_forall. intros q Hq.
    apply negb_true_iff, Nat.eqb_neq. intros ->.
    specialize (Hfresh _ Hq). lia. }
  unfold try_catch, harvest_email, bind, newPage, await, close, on_data,
    modify, ret.
  destruct (new_page o) as [[]|e]; [|discriminate].
  destruct (goto_website o) as [[]|e]; [|discriminate].
  destruct (website_content o) as [content|e]; [|discriminate].
  destruct (match_emailRegex content);
    cbn [fst snd context data next_page open_pages];
    (split; [exact Hclose | lia]).
Qed.

Lemma listing_quiet_context prog u o c :
  harvest_throws o = false ->
  ctx_fresh c ->
  open_pages (snd (scrape_listing prog u o c)) = open_pages c /\
  next_page c <= next_page (snd (scrape_listing prog u o c)).
Proof.
  intros Hquiet Hfresh. unfold scrape_listing.
  rewrite listing_body_split. unfold bind.
  set (J := fun s : St => context s = c).
  assert (K1 : keeps J (field_stages o prog)).
  { unfold field_stages. unfold_stages. subst J. keeps_untouched. }
  assert (K2 : keeps J (reviews_stage o)).
  { unfold_stages. subst J. keeps_untouched. }
  specialize (K1 (mkSt (new_data u) c) eq_refl).
  destruct (field_stages o prog (mkSt (new_data u) c)) as [[[]|e] s1];
    [|cbn [snd]; rewrite K1; auto].
  specialize (K2 s1 K1).
  destruct (reviews_stage o s1) as [[[]|e] s2];
    [|cbn [snd]; rewrite K2; auto].
  subst J. cbv beta in K2.
  assert (Hf : ctx_fresh (context s2)) by (rewrite K2; exact Hfresh).
  destruct (email_stage_quiet_context prog o s2 Hquiet Hf) as [Ho Hn].
  rewrite K2 in Ho, Hn.
  destruct (email_stage prog o s2) as [[[]|e] s3]; cbn [snd] in *; auto.
Qed.

(** X15.  Over a run in which no call of the email block throws, every
    secondary page that is opened is closed again: after the loop over
    the listings the browser has the pages open that it had before, none
    when it started with none. *)
Theorem quiet_run_leaves_no_page_open prog obs urls c :
  (forall u, In u urls -> harvest_throws (obs u) = false) ->
  ctx_fresh c ->
  open_pages (snd (scrape_urls prog obs urls c)) = open_pages c.
Proof.
  revert c. induction urls as [|u urls IH]; intros c Hquiet Hfresh;
    [reflexivity|].
  cbn [scrape_urls].
  destruct (listing_quiet_context prog u (obs u) c) as [Ho Hn];
    [apply Hquiet; left; reflexivity | exact Hfresh |].
  destruct (scrape_listing prog u (obs u) c) as [r c1]. cbn [snd] in *.
  assert (Hf1 : ctx_fresh c1).
  { intros p Hp. rewrite Ho in Hp. specialize (Hfresh p Hp). lia. }
  specialize (IH c1 (fun u0 H0 => Hquiet u0 (or_intror H0)) Hf1).
  destruct (scrape_urls prog obs urls c1) as [rs c2]. cbn [snd] in *.
  congruence.
Qed.

Lemma quiet_run_leaves_no_page_open_witness :
  open_pages
    (snd (scrape_urls CLI (fun _ => sample_page)
            [js "https://maps/place/1"; js "https://maps/place/5"] ctx0))
  = open_pages ctx0.
Proof.
  apply (quiet_run_leaves_no_page_open CLI (fun _ => sample_page)
           [js "https://maps/place/1"; js "https://maps/place/5"] ctx0).
  - intros u _. reflexivity.
  - intros p [].
Defined.

(* ================================================================== *)
(** * Further properties: attributes *)
(* ================================================================== *)

Lemma scan_attributes_subseq pageContent :
  subseq (scan_attributes pageContent) known_tags.
Proof.
  unfold scan_attributes, known_tags, push_if. cbv zeta.
  destruct (includes pageContent (js "Identified as women-owned"));
    destruct (includes pageContent (js "Identified as veteran-owned"));
    destruct (includes pageContent (js "Identified as Black-owned"));
    destruct (includes pageContent (js "Identified as Latino-owned"));
    cbn [app map];
    repeat first [apply subseq_keep | apply subseq_skip | apply subseq_nil].
Qed.

(** X16.  The [attributes] of a record produced by scraper.js hold only
    the four ownership tags, each at most once and in the fixed order
    women, veteran, Black, Latino. *)
Theorem attributes_within_known_tags o d :
  produced CLI o d -> subseq (tags d) known_tags.
Proof.
  intros Hp. unfold tags. rewrite (cli_attributes o d Hp).
  unfold about_assigns.
  assert (Hnil : subseq (@nil jsstring) known_tags)
    by (unfold known_tags; cbn [map]; repeat constructor).
  destruct (about_tab_count o) as [n|e]; [|exact Hnil].
  destruct (positive n); [|exact Hnil].
  destruct (about_tab_click o) as [[]|e]; [|exact Hnil].
  destruct (about_content o) as [pageContent|e]; [|exact Hnil].
  apply scan_attributes_subseq.
Qed.

Lemma attributes_within_known_tags_witness :
  subseq (tags sample_record) known_tags.
Proof.
  apply (attributes_within_known_tags sample_page sample_record).
  exact sample_produced.
Defined.

(* ================================================================== *)
(** * Further properties: address, phone and rating *)
(* ================================================================== *)

Lemma button_step_labels btn s s' :
  button_step btn s = (Ok tt, s') ->
  address (data s') = pick_label (js "address") (address (data s)) btn /\
  phone (data s') = pick_label (js "phone") (phone (data s)) btn.
Proof.
  unfold button_step, pick_label, bind, await, non_null, throw, ret, when,
    on_data, modify.
  destruct (btn_textContent btn) as [text|e]; [|discriminate].
  destruct (btn_ariaLabel btn) as [ariaLabel|e]; [|discriminate].
  destruct (btn_itemId btn) as [[|itemId]|e]; try discriminate.
  destruct (includes itemId (js "address"));
    destruct (includes itemId (js "phone"));
    destruct (includes itemId (js "authority"));
    intros H; inversion H; subst s'; split; reflexivity.
Qed.

Lemma button_loop_labels buttons : forall s s',
  for_of buttons button_step s = (Ok tt, s') ->
  address (data s')
  = fold_left (pick_label (js "address")) buttons (address (data s)) /\
  phone (data s')
  = fold_left (pick_label (js "phone")) buttons (phone (data s)).
Proof.
  induction buttons as [|btn buttons IH]; intros s s' H.
  - cbn in H. inversion H; subst. split; reflexivity.
  - cbn [for_of] in H. unfold bind in H.
    destruct (button_step btn s) as [[[]|e] s1] eqn:E; [|discriminate].
    destruct (button_step_labels _ _ _ E) as [Ha Hp].
    destruct (IH _ _ H) as [Ha' Hp']. cbn [fold_left].
    rewrite Ha', Hp', Ha, Hp. split; reflexivity.
Qed.

(** X17.  [address] and [phone] of a produced record are the labels of
    the last details button whose id contains [address], respectively
    [phone]: the button's [aria-label] when it is non-empty, its text
    otherwise; a field for which no button has such an id is the empty
    string. *)
Theorem address_and_phone_from_last_button prog o d buttons :
  produced prog o d ->
  item_buttons o = Ok buttons ->
  address d = last_label (js "address") buttons /\
  phone d = last_label (js "phone") buttons.
Proof.
  intros (u & c & c' & Hrun) Hbuttons. unfold scrape_listing in Hrun.
  rewrite listing_body_stages in Hrun. unfold after_name in Hrun.
  unfold bind in Hrun.
  set (I0 := fun d0 : ListingRecord => address d0 = JStr [] /\ phone d0 = JStr []).
  assert (K0 : keeps (on_record I0) (await (goto_listing o)))
    by apply keeps_await.
  assert (K1 : keeps (on_record I0) (name_stage o)).
  { unfold name_stage. subst I0. keeps_untouched. }
  specialize (K0 (mkSt (new_data u) c) (conj eq_refl eq_refl)).
  destruct (await (goto_listing o) (mkSt (new_data u) c)) as [[[]|e] s0];
    [|discriminate].
  specialize (K1 s0 K0).
  destruct (name_stage o s0) as [[[]|e] s1]; [|discriminate].
  destruct K1 as [Ha1 Hp1].
  destruct (buttons_stage o s1) as [[[]|e] s2] eqn:Eb; [|discriminate].
  assert (Hloop : for_of buttons button_step s1 = (Ok tt, s2)).
  { unfold buttons_stage, bind, await in Eb. rewrite Hbuttons in Eb. exact Eb. }
  destruct (button_loop_labels _ _ _ Hloop) as [Ha2 Hp2].
  rewrite Ha1 in Ha2. rewrite Hp1 in Hp2.
  fold (last_label (js "address") buttons) in Ha2.
  fold (last_label (js "phone") buttons) in Hp2.
  assert (K : keeps (on_record (fun d0 =>
                       address d0 = last_label (js "address") buttons /\
                       phone d0 = last_label (js "phone") buttons))
                    (after_buttons prog o)).
  { unfold after_buttons, after_website, after_rating, harvest_stages.
    unfold_stages. keeps_untouched. }
  pose proof (kept_after _ _ s2 K (conj Ha2 Hp2)) as Hend.
  destruct (after_buttons prog o s2) as [[[]|e] s3]; [|discriminate].
  injection Hrun as Hd Hc. rewrite <- Hd. exact Hend.
Qed.

Lemma address_and_phone_from_last_button_witness :
  address sample_record
  = last_label (js "address")
      [mkButton (Ok (JStr (js "1 Main St"))) (Ok (JStr (js "Address: 1 Main St")))
                (Ok (JStr (js "address")))] /\
  phone sample_record
  = last_label (js "phone")
      [mkButton (Ok (JStr (js "1 Main St"))) (Ok (JStr (js "Address: 1 Main St")))
                (Ok (JStr (js "address")))].
Proof.
  apply (address_and_phone_from_last_button CLI sample_page sample_record).
  - exact sample_produced.
  - reflexivity.
Defined.

Lemma split_space_first_no_space s : ~ In 32%N (split_space_first s).
Proof.
  unfold split_space_first.
  destruct (span (fun c => negb (c =? 32)%N) s) as [a b] eqn:E.
  apply span_spec in E. destruct E as (_ & Ha & _). cbn [fst].
  intros Hin. rewrite forallb_forall in Ha. specialize (Ha _ Hin).
  discriminate.
Qed.

Lemma rating_stage_stars o s n aria :
  stars_count o = Ok (S n) ->
  stars_aria o = Ok (JStr aria) ->
  rating (data (snd (rating_stage o s))) = JStr (split_space_first aria).
Proof.
  intros Hn Ha.
  unfold rating_stage, try_catch, bind, await, non_null, throw, ret, on_data,
    modify.
  rewrite Hn, Ha. change (positive (S n)) with true. cbv iota.
  destruct (paren_count o) as [n2|e]; [|reflexivity].
  destruct (positive n2).
  - destruct (paren_text o) as [[|t]|e]; reflexivity.
  - destruct (phrase_count o) as [m2|e]; [|reflexivity].
    destruct (positive m2); [|reflexivity].
    destruct (phrase_text o) as [[|t]|e]; reflexivity.
Qed.

(** X18.  When the page has a stars label, [rating] is the label up to
    its first space (the whole label when it has none), and so holds no
    space; it is set even when resolving the review count then fails. *)
Theorem rating_is_first_word_of_stars_label prog o d n aria :
  produced prog o d ->
  stars_count o = Ok (S n) ->
  stars_aria o = Ok (JStr aria) ->
  rating d = JStr (split_space_first aria) /\
  ~ In 32%N (split_space_first aria) /\
  exists rest, aria = split_space_first aria ++ rest.
Proof.
  intros (u & c & c' & Hrun) Hn Ha. split; [|split].
  - unfold scrape_listing in Hrun.
    rewrite listing_body_stages in Hrun.
    unfold after_name, after_buttons, after_website in Hrun.
    unfold bind in Hrun.
    destruct (await (goto_listing o) (mkSt (new_data u) c)) as [[[]|e] s0];
      [|discriminate].
    destruct (name_stage o s0) as [[[]|e] s1]; [|discriminate].
    destruct (buttons_stage o s1) as [[[]|e] s2]; [|discriminate].
    destruct (website_stage o s2) as [[[]|e] s3]; [|discriminate].
    pose proof (rating_stage_stars o s3 n aria Hn Ha) as Hr.
    destruct (rating_stage o s3) as [[[]|e] s4]; [|discriminate].
    cbn [snd] in Hr.
    assert (K : keeps (on_record (fun d0 =>
                         rating d0 = JStr (split_space_first aria)))
                      (after_rating prog o)).
    { unfold after_rating, harvest_stages. unfold_stages. keeps_untouched. }
    pose proof (kept_after _ _ s4 K Hr) as Hend.
    destruct (after_rating prog o s4) as [[[]|e] s5]; [|discriminate].
    injection Hrun as Hd Hc. rewrite <- Hd. exact Hend.
  - apply split_space_first_no_space.
  - unfold split_space_first.
    destruct (span (fun c0 => negb (c0 =? 32)%N) aria) as [a b] eqn:E.
    apply span_spec in E. destruct E as (E & _). exists b. exact E.
Qed.

Lemma rating_is_first_word_of_stars_label_witness :
  rating sample_record = JStr (split_space_first (js "4.5 stars")) /\
  ~ In 32%N (split_space_first (js "4.5 stars")) /\
  exists rest, js "4.5 stars" = split_space_first (js "4.5 stars") ++ rest.
Proof.
  apply (rating_is_first_word_of_stars_label CLI sample_page sample_record 0).
  - exact sample_produced.
  - reflexivity.
  - reflexivity.
Defined.
